(** * StarRocks BE: Status, the spill DirManager and HashJoinBuildOperator

    A shallow embedding of
      - be/src/common/status.h                 ([TStatusCode], [StatusModel]),
      - be/src/exec/spill/dir_manager.cpp      ([Regex], [Spill]),
      - be/src/exec/pipeline/hashjoin/hash_join_build_operator.cpp
                                               ([HashJoinBuild]),
    followed by the properties the specification states about them
    ([StatusProps], [RegexProps], [SpillProps], [HashJoinProps]).

    Parts of the repository these files call but that are defined
    elsewhere (status.cpp, the Joiner, the filter merger, the file system)
    are parameters of the model or are modelled from the specification;
    each such definition says so. *)

From Stdlib Require Import ZArith Lia Bool Ascii String List.
From stdpp Require Import base decidable option list gmap strings pretty.

Set Default Proof Using "Type".

(** ** TStatusCode

    The enumerators status.h names.  The enum itself is generated from the
    thrift definition; only the names used in status.h occur here. *)
Module TStatusCode.

Inductive type : Set :=
| OK | UNKNOWN | PUBLISH_TIMEOUT | MEM_ALLOC_FAILED | BUFFER_ALLOCATION_FAILED
| INVALID_ARGUMENT | MINIMUM_RESERVATION_UNAVAILABLE | CORRUPTION | IO_ERROR
| NOT_FOUND | ALREADY_EXIST | NOT_IMPLEMENTED_ERROR | END_OF_FILE
| INTERNAL_ERROR | RUNTIME_ERROR | CANCELLED | MEM_LIMIT_EXCEEDED
| THRIFT_RPC_ERROR | TIMEOUT | TOO_MANY_TASKS | SERVICE_UNAVAILABLE
| UNINITIALIZED | ABORTED | DATA_QUALITY_ERROR
| OLAP_ERR_VERSION_ALREADY_MERGED | DUPLICATE_RPC_INVOCATION
| GLOBAL_DICT_ERROR | TXN_IN_PROCESSING | TXN_NOT_EXISTS
| LABEL_ALREADY_EXISTS | RESOURCE_BUSY | SR_EAGAIN | REMOTE_FILE_NOT_FOUND
| CAPACITY_LIMIT_EXCEED.

#[global] Instance type_eq_dec : EqDecision type.
Proof. solve_decision. Defined.

End TStatusCode.

(** ** Status (common/status.h) *)
Module StatusModel.

Import TStatusCode.

(** The array [_state] points to (status.h, lines 400-406):
      _state[0..1] = len1, _state[2..3] = len2, _state[4] = code,
      then len1 bytes of message and len2 bytes of context.
    The cells are kept as a record; [len1] and [len2] are the lengths of
    the two strings, and two bytes bound each of them by 65535. *)
Record state_cells : Set := StateCells {
  cell_code : TStatusCode.type;
  cell_message : string;
  cell_context : string
}.

#[global] Instance state_cells_eq_dec : EqDecision state_cells.
Proof. solve_decision. Defined.

Definition UINT16_MAX : nat := Z.to_nat 65535.

Definition len1 (a : state_cells) : nat := String.length (cell_message a).
Definition len2 (a : state_cells) : nat := String.length (cell_context a).

(** What a [const char* _state] can be: null (success), the address
    [moved_from_state()] returns, or a [new[]] array.  The destructor
    (line 48) keeps [delete[]] away from the moved-from address, which a
    null pointer would not need: it is a marker of its own, in static
    storage. *)
Inductive state_ptr : Set :=
| nullptr
| moved_from_state
| new_array (a : state_cells).

#[global] Instance state_ptr_eq_dec : EqDecision state_ptr.
Proof. solve_decision. Defined.

(** [static bool is_moved_from(const char* state)]: declared at line 390
    ("whether this Status was the rhs of a move operation"). *)
Definition is_moved_from (state : state_ptr) : bool :=
  match state with moved_from_state => true | _ => false end.

Record Status : Set := MkStatus {
  _state : state_ptr;
  _checked : bool          (* present under STARROCKS_ASSERT_STATUS_CHECKED *)
}.

(** What a destructor run does. *)
Record destruction : Set := Destruction {
  reported_unchecked : bool;   (* "Failed to check status" printed *)
  deleted : option state_ptr   (* argument of [delete[]], if it ran *)
}.

Section WithBuild.

(** [STARROCKS_ASSERT_STATUS_CHECKED] is defined. *)
Variable ASSERT_STATUS_CHECKED : bool.

(** The cells of the static array [moved_from_state()] returns.  Its
    definition is in status.cpp; the header fixes only that it is static
    storage the destructor must not [delete[]]. *)
Variable g_moved_from_state : state_cells.

Definition cells (p : state_ptr) : option state_cells :=
  match p with
  | nullptr => None
  | moved_from_state => Some g_moved_from_state
  | new_array a => Some a
  end.

(** lines 393-397 *)
Definition mark_checked (s : Status) : Status :=
  if ASSERT_STATUS_CHECKED then MkStatus (_state s) true else s.

(** lines 127-131 *)
Definition must_check (s : Status) : Status :=
  if ASSERT_STATUS_CHECKED then MkStatus (_state s) false else s.

(** line 125 *)
Definition permit_unchecked_error (s : Status) : Status := mark_checked s.

(** [Status() = default], line 34, with the member initialisers of lines
    407 and 411. *)
Definition default_Status : Status := MkStatus nullptr false.

(** line 133 *)
Definition OK_ : Status := default_Status.

(** What fits a two-byte length cell. *)
Definition truncate (s : string) : string := substring 0 UINT16_MAX s.

(** Modelled from the spec: the array behind a failure ("byte-packed
    in-memory error encoding"), built in status.cpp as documented at
    status.h:400-406; the two-byte length cells keep at most 65535 bytes of
    message and of context. *)
Definition assemble_state (c : TStatusCode.type) (msg ctx : string) : state_ptr :=
  new_array (StateCells c (truncate msg) (truncate ctx)).

(** Modelled from the spec: [Status(code, msg, ctx)], declared at line 383
    and defined in status.cpp: "construct failure with a kind, message,
    optional trailing context". *)
Definition Status_ctor3 (c : TStatusCode.type) (msg ctx : string) : Status :=
  MkStatus (assemble_state c msg ctx) false.

(** line 382 *)
Definition Status_ctor (c : TStatusCode.type) (msg : string) : Status :=
  Status_ctor3 c msg EmptyString.

(** The factories used in this development (lines 140-158). *)
Definition InvalidArgument (msg : string) := Status_ctor INVALID_ARGUMENT msg.
Definition IOError (msg : string) := Status_ctor IO_ERROR msg.
Definition NotFound (msg : string) := Status_ctor NOT_FOUND msg.
Definition NotSupported (msg : string) := Status_ctor NOT_IMPLEMENTED_ERROR msg.
Definition InternalError (msg : string) := Status_ctor INTERNAL_ERROR msg.
Definition Cancelled (msg : string) := Status_ctor CANCELLED msg.

(** Modelled from the spec: [copy_state] (line 386, defined in status.cpp):
    "copying a failure duplicates its message/context storage" - a fresh
    array holding the same cells. *)
Definition copy_state (state : state_ptr) : state_ptr :=
  match cells state with
  | Some a => new_array a
  | None => nullptr
  end.

(** *** Observers on the pointer *)

(** line 357: [_state == nullptr ? OK : (TStatusCode::type)_state[4]] *)
Definition code_of (p : state_ptr) : TStatusCode.type :=
  match cells p with None => OK | Some a => cell_code a end.

(** Modelled from the spec: [message()] (line 350, defined in status.cpp):
    "the message portion of the Status; for OK statuses, this returns an
    empty string" - the [len1] bytes after the header. *)
Definition message_of (p : state_ptr) : string :=
  match cells p with None => EmptyString | Some a => cell_message a end.

(** The [len2] bytes after the message. *)
Definition context_of (p : state_ptr) : string :=
  match cells p with None => EmptyString | Some a => cell_context a end.

(** *** Const member functions: they return their value and the object,
    whose mutable [_checked] they set. *)

(** lines 202-205 *)
Definition ok (s : Status) : bool * Status :=
  (bool_decide (_state s = nullptr), mark_checked s).

(** lines 355-358 *)
Definition code (s : Status) : TStatusCode.type * Status :=
  (code_of (_state s), mark_checked s).

Definition message (s : Status) : string := message_of (_state s).

(** lines 207-210 *)
Definition is_cancelled (s : Status) : bool * Status :=
  let s := mark_checked s in
  let '(c, s) := code s in (bool_decide (c = CANCELLED), s).

(** lines 237-240 *)
Definition is_not_found (s : Status) : bool * Status :=
  let s := mark_checked s in
  let '(c, s) := code s in (bool_decide (c = NOT_FOUND), s).

(** lines 252-255 *)
Definition is_not_supported (s : Status) : bool * Status :=
  let s := mark_checked s in
  let '(c, s) := code s in (bool_decide (c = NOT_IMPLEMENTED_ERROR), s).

(** *** Construction, assignment, destruction *)

(** lines 36-51 *)
Definition destroy (s : Status) : destruction :=
  Destruction (ASSERT_STATUS_CHECKED && negb (_checked s))
              (if is_moved_from (_state s) then None else Some (_state s)).

(** Copy constructor, lines 61-64: the new object and the source. *)
Definition copy_construct (s : Status) : Status * Status :=
  let new := MkStatus (if bool_decide (_state s = nullptr) then nullptr
                       else copy_state (_state s)) false in
  let s := mark_checked s in
  (must_check new, s).

(** Move constructor, lines 67-71: the new object and the source. *)
Definition move_construct (s : Status) : Status * Status :=
  let new := MkStatus (_state s) false in
  let s := MkStatus moved_from_state (_checked s) in
  let s := mark_checked s in
  (must_check new, s).

(** Copy assignment, lines 74-82, for [this != &s]: [*this], [s] and what
    the destructor of [tmp] does. *)
Definition copy_assign (this s : Status) : Status * Status * destruction :=
  let '(tmp, s) := copy_construct s in
  let '(this, tmp) := (MkStatus (_state tmp) (_checked this),
                       MkStatus (_state this) (_checked tmp)) in
  let tmp := mark_checked tmp in
  let this := must_check this in
  (this, s, destroy tmp).

(** Move assignment, lines 85-93, for [this != &s]. *)
Definition move_assign (this s : Status) : Status * Status * destruction :=
  let '(tmp, s) := move_construct s in
  let '(this, tmp) := (MkStatus (_state tmp) (_checked this),
                       MkStatus (_state this) (_checked tmp)) in
  let tmp := mark_checked tmp in
  let this := must_check this in
  (this, s, destroy tmp).

(** [Status::update(const Status&)], lines 415-421: [*this] and
    [new_status] afterwards. *)
Definition update (this new_status : Status) : Status * Status :=
  let new_status := mark_checked new_status in
  let '(b, this) := ok this in
  if b then
    let '(this, new_status, _) := copy_assign this new_status in
    (must_check this, new_status)
  else (this, new_status).

(** [Status::update(Status&&)], lines 423-429. *)
Definition update_move (this new_status : Status) : Status * Status :=
  let new_status := mark_checked new_status in
  let '(b, this) := ok this in
  if b then
    let '(this, new_status, _) := move_assign this new_status in
    (must_check this, new_status)
  else (this, new_status).

(** [ignore_not_found], lines 431-433: the returned Status (built by the
    copy constructor when the argument is returned) and the argument. *)
Definition ignore_not_found (status : Status) : Status * Status :=
  let '(b, status) := is_not_found status in
  if b then (OK_, status) else copy_construct status.

(** Modelled from the spec: the context a propagation adds: "file/line/
    expression breadcrumbs". *)
Definition breadcrumb (filename : string) (line : Z) (expr : string) : string :=
  String "010"%char (filename +:+ ":" +:+ pretty line +:+ " " +:+ expr).

(** Modelled from the spec: [clone_and_append_context] (line 380, defined
    in status.cpp) is "used by the propagation macro to annotate where a
    failure was first observed as it unwinds, without changing its kind";
    the breadcrumb goes to the context cells. *)
Definition clone_and_append_context (s : Status)
    (filename : string) (line : Z) (expr : string) : Status :=
  match cells (_state s) with
  | None => MkStatus nullptr false
  | Some a =>
      MkStatus (new_array (StateCells (cell_code a) (cell_message a)
                  (truncate (cell_context a +:+ breadcrumb filename line expr))))
               false
  end.

(** [RETURN_IF_ERROR_INTERNAL], lines 453-459 (the expansion of
    RETURN_IF_ERROR without ENABLE_STATUS_FAILED, line 538): [Some st] is
    the Status the enclosing function returns, [None] lets it go on. *)
Definition RETURN_IF_ERROR (status__ : Status)
    (FILE : string) (LINE : Z) (stmt : string) : option Status :=
  if (ok status__).1 then None
  else Some (clone_and_append_context (ok status__).2 FILE LINE stmt).

(** Modelled from the spec: the wire form of a Status ([to_thrift],
    [to_protobuf] and the constructors from [TStatus] and [StatusPB] are
    declared at lines 96-98 and 325-326 and defined in status.cpp): "a
    success value has no payload; a failure is serialized as { code,
    message, context }".  A transport may drop the context. *)
Inductive wire : Set :=
| wire_success
| wire_failure (code : TStatusCode.type) (message context : string).

(** Modelled from the spec: [to_thrift] and [to_protobuf]. *)
Definition to_wire (s : Status) : wire :=
  match cells (_state s) with
  | None => wire_success
  | Some a => wire_failure (cell_code a) (cell_message a) (cell_context a)
  end.

(** Modelled from the spec: [Status(const TStatus&)] and
    [Status(const StatusPB&)]. *)
Definition from_wire (w : wire) : Status :=
  match w with
  | wire_success => default_Status
  | wire_failure c m x => Status_ctor3 c m x
  end.

(** Modelled from the spec: "context is advisory and may be dropped by
    lossy transports". *)
Definition drop_context (w : wire) : wire :=
  match w with
  | wire_success => wire_success
  | wire_failure c m _ => wire_failure c m EmptyString
  end.

(** What arrives of a wire form. *)
Definition transport (lossy : bool) (w : wire) : wire :=
  if lossy then drop_context w else w.

(** The length cells hold the lengths of the strings they describe. *)
Definition wf_cells (a : state_cells) : Prop :=
  len1 a <= UINT16_MAX /\ len2 a <= UINT16_MAX.

Definition wf_state (p : state_ptr) : Prop :=
  match cells p with None => True | Some a => wf_cells a end.

End WithBuild.

End StatusModel.

(** ** std::regex, as far as dir_manager.cpp uses it *)
Module Regex.

(** The ECMAScript constructs of the pattern at dir_manager.cpp:60. *)
Inductive regex : Set :=
| assert_begin                              (* ^ *)
| assert_end                                (* $ *)
| chr (c : ascii)                           (* an ordinary character *)
| bracket (ranges : list (ascii * ascii))   (* [a-b...] *)
| times (n : nat) (r : regex)               (* r{n} *)
| cat (r1 r2 : regex).

Definition in_range (c : ascii) (range : ascii * ascii) : bool :=
  ((nat_of_ascii range.1 <=? nat_of_ascii c)
   && (nat_of_ascii c <=? nat_of_ascii range.2))%nat.

(** A backtracking matcher in continuation style.  [at_begin] tells that
    no character has been consumed yet; [k] is what has to match the rest. *)
Fixpoint run (r : regex) (at_begin : bool) (s : string)
    (k : bool -> string -> bool) {struct r} : bool :=
  match r with
  | assert_begin => at_begin && k at_begin s
  | assert_end => match s with EmptyString => k at_begin s | _ => false end
  | chr c =>
      match s with
      | String d s' => bool_decide (c = d) && k false s'
      | EmptyString => false
      end
  | bracket ranges =>
      match s with
      | String d s' => existsb (in_range d) ranges && k false s'
      | EmptyString => false
      end
  | times n r' =>
      (fix rep (n : nat) (at_begin : bool) (s : string) : bool :=
         match n with
         | O => k at_begin s
         | S n' => run r' at_begin s (fun b s' => rep n' b s')
         end) n at_begin s
  | cat r1 r2 => run r1 at_begin s (fun b s' => run r2 b s' k)
  end.

(** [std::regex_match]: the whole string has to match. *)
Definition regex_match (s : string) (r : regex) : bool :=
  run r true s (fun _ rest => bool_decide (rest = EmptyString)).

End Regex.

(** ** DirManager (exec/spill/dir_manager.cpp) *)
Module Spill.

Import TStatusCode StatusModel Regex.

Definition hex_ranges : list (ascii * ascii) :=
  [("0"%char, "9"%char); ("a"%char, "f"%char)].

Definition hex_class : regex := bracket hex_ranges.

Definition hyphen : regex := chr "-"%char.

(** line 60:
    "^[0-9a-f]{8}-[0-9a-f]{4}-[0-9a-f]{4}-[0-9a-f]{4}-[0-9a-f]{12}$" *)
Definition query_id_pattern : regex :=
  cat assert_begin
 (cat (times 8 hex_class) (cat hyphen
 (cat (times 4 hex_class) (cat hyphen
 (cat (times 4 hex_class) (cat hyphen
 (cat (times 4 hex_class) (cat hyphen
 (cat (times 12 hex_class) assert_end))))))))).

(** The spec's words: groups of 8, 4, 4, 4 and 12 lowercase hexadecimal
    digits, separated by hyphens. *)
Definition lower_hex_digit (c : ascii) : Prop :=
  In c (list_ascii_of_string "0123456789abcdef").

Definition hex_group (n : nat) (x : string) : Prop :=
  String.length x = n /\ Forall lower_hex_digit (list_ascii_of_string x).

Definition is_query_id_name (s : string) : Prop :=
  exists a b c d e : string,
    s = a +:+ "-" +:+ b +:+ "-" +:+ c +:+ "-" +:+ d +:+ "-" +:+ e
    /\ hex_group 8 a /\ hex_group 4 b /\ hex_group 4 c /\ hex_group 4 d
    /\ hex_group 12 e.

(** [StorePath] (storage/options.h): only [path] is read. *)
Record StorePath : Set := MkStorePath { path : string }.

(** The FileSystem interface (fs/fs.h) as far as [init] calls it, over a
    type [F] of file-system states.  [dir_entries] is what [iterate_dir]
    returns and the sequence of names it hands to its callback before. *)
Class FileSystem (F : Type) := {
  CreateSharedFromString : string -> F -> option Status;
  create_dir_if_missing : string -> F -> Status * F;
  dir_entries : string -> F -> Status * list string;
  delete_dir_recursive : string -> F -> Status * F
}.

(** [DirManager]: the paths of [_dirs] and the round-robin cursor. *)
Record DirManager : Set := MkDirManager {
  _dirs : list string;
  _idx : nat
}.

(** What [init] acts on: the file system, the manager, and the arguments
    of the [delete_dir_recursive] calls made so far (oldest first). *)
Record world (F : Type) : Type := MkWorld {
  disk : F;
  manager : DirManager;
  deleted_dirs : list string
}.
Arguments MkWorld {F} _ _ _.
Arguments disk {F} _.
Arguments manager {F} _.
Arguments deleted_dirs {F} _.

Definition FILE : string := "be/src/exec/spill/dir_manager.cpp".

(** [spill_dir_path + "/" + sub_dir], line 71. *)
Definition sub_path (p n : string) : string := p +:+ "/" +:+ n.

(** The names of a listing that the pattern accepts. *)
Definition matching (names : list string) : list string :=
  List.filter (fun n => regex_match n query_id_pattern) names.

Section Init.

Context {F : Type} `{FileSystem F}.

Variable chk : bool.
Variable g : state_cells.

(** Collaborators of lines 26-55: [parse_conf_store_paths] with its output
    vector, [StorageEngine::instance()->get_store_paths()],
    [check_datapath_rw] and [config::ignore_broken_disk]. *)
Variable parse_conf_store_paths : string -> Status * list StorePath.
Variable get_store_paths : list string.
Variable check_datapath_rw : string -> bool.
Variable ignore_broken_disk : bool.

(** The context [RETURN_IF_ERROR] gives a failure of the statement of
    lines 66-78.  [AS_STRING(stmt)] is the text of the whole call, its
    lambda included, after macro expansion, and the lambda writes to
    glog's [LOG(INFO)]; [__LINE__] of a macro call that spans lines is the
    compiler's choice.  Neither can be read off these sources. *)
Variable iterate_dir_LINE : Z.
Variable iterate_dir_stmt : string.

(** lines 36-55: the paths that stay in [spill_local_storage_paths], or
    the Status returned from inside the loop. *)
Fixpoint check_paths (paths : list StorePath) : Status + list StorePath :=
  match paths with
  | [] => inr []
  | p :: rest =>
      if bool_decide (path p ∈ get_store_paths) then
        inl (InvalidArgument
               ("spill_local_storage_dir " +:+ path p +:+
                " already exists in storage_root_path, please use another path"))
      else if negb (check_datapath_rw (path p)) then
        if ignore_broken_disk then check_paths rest
        else
          inl (IOError
                 ("read write test spill_local_storage_dir " +:+ path p +:+
                  " failed, please make sure it is available and BE has permission to access"))
      else
        match check_paths rest with
        | inl e => inl e
        | inr kept => inr (p :: kept)
        end
  end.

(** [iterate_dir(dir, cb)]: the callback sees every entry until it answers
    false. *)
Fixpoint visit {S : Type} (cb : string -> S -> bool * S)
    (names : list string) (s : S) : S :=
  match names with
  | [] => s
  | n :: rest =>
      let '(go_on, s) := cb n s in
      if go_on then visit cb rest s else s
  end.

Definition iterate_dir (dir : string)
    (cb : string -> world F -> bool * world F) (w : world F)
    : Status * world F :=
  let '(st, names) := dir_entries dir (disk w) in
  (st, visit cb names w).

(** The lambda of lines 66-78. *)
Definition clean_residual (spill_dir_path : string)
    (sub_dir : string) (w : world F) : bool * world F :=
  let dir := sub_path spill_dir_path sub_dir in
  if regex_match sub_dir query_id_pattern then
    let '(_, d) := delete_dir_recursive dir (disk w) in
    (true, MkWorld d (manager w) (deleted_dirs w ++ [dir]))
  else
    (true, w).

(** The body of the loop at lines 62-80 for one path: [Some st] when it
    returns [st] from [init]. *)
Definition prepare_dir (p : StorePath) (w : world F)
    : option Status * world F :=
  let spill_dir_path := path p in
  match CreateSharedFromString spill_dir_path (disk w) with
  | Some e =>
      (Some (clone_and_append_context g (mark_checked chk e) FILE 64
               "FileSystem::CreateSharedFromString(spill_dir_path)"), w)
  | None =>
      let '(st, d) := create_dir_if_missing spill_dir_path (disk w) in
      let w := MkWorld d (manager w) (deleted_dirs w) in
      match RETURN_IF_ERROR chk g st FILE 65
              "fs->create_dir_if_missing(spill_dir_path)" with
      | Some e => (Some e, w)
      | None =>
          let '(st, w) := iterate_dir spill_dir_path
                            (clean_residual spill_dir_path) w in
          match RETURN_IF_ERROR chk g st FILE iterate_dir_LINE
                  iterate_dir_stmt with
          | Some e => (Some e, w)
          | None =>
              (None,
               MkWorld (disk w)
                 (MkDirManager (_dirs (manager w) ++ [spill_dir_path])
                               (_idx (manager w)))
                 (deleted_dirs w))
          end
      end
  end.

Fixpoint prepare_dirs (paths : list StorePath) (w : world F)
    : option Status * world F :=
  match paths with
  | [] => (None, w)
  | p :: rest =>
      match prepare_dir p w with
      | (Some e, w) => (Some e, w)
      | (None, w) => prepare_dirs rest w
      end
  end.

(** [DirManager::init], lines 26-82. *)
Definition init (spill_dirs : string) (w : world F) : Status * world F :=
  let '(st, spill_local_storage_paths) := parse_conf_store_paths spill_dirs in
  match RETURN_IF_ERROR chk g st FILE 28
          "parse_conf_store_paths(spill_dirs, &spill_local_storage_paths)" with
  | Some e => (e, w)
  | None =>
      if bool_decide (spill_local_storage_paths = []) then
        (InvalidArgument "cannot find spill_local_storage_dir", w)
      else
        match check_paths spill_local_storage_paths with
        | inl e => (e, w)
        | inr spill_local_storage_paths =>
            if bool_decide (spill_local_storage_paths = []) then
              (InvalidArgument "cannot find available spill_local_storage_dir", w)
            else
              match prepare_dirs spill_local_storage_paths w with
              | (Some e, w) => (e, w)
              | (None, w) => (OK_, w)
              end
        end
  end.

End Init.

(** *** An in-memory file system to run [init] on

    A directory tree flattened to the list of its directories, each with
    the names of its entries. *)
Definition mem_fs : Set := list (string * list string).

Definition under (dir p : string) : bool :=
  bool_decide (p = dir) || String.prefix (dir +:+ "/") p.

Definition mem_delete (dir : string) (fs : mem_fs) : mem_fs :=
  map (fun '(p, names) =>
         (p, filter (fun n => p +:+ "/" +:+ n <> dir) names))
      (filter (fun '(p, _) => under dir p = false) fs).

Definition mem_lookup (dir : string) (fs : mem_fs) : option (list string) :=
  snd <$> find (fun '(p, _) => bool_decide (p = dir)) fs.

#[global] Instance mem_FileSystem : FileSystem mem_fs := {
  CreateSharedFromString _ _ := None;
  create_dir_if_missing dir fs :=
    (OK_, match mem_lookup dir fs with Some _ => fs | None => fs ++ [(dir, [])] end);
  dir_entries dir fs :=
    match mem_lookup dir fs with
    | Some names => (OK_, names)
    | None => (NotFound dir, [])
    end;
  delete_dir_recursive dir fs := (OK_, mem_delete dir fs)
}.

End Spill.

(** *** A direct recogniser for the pattern

    [take_class] consumes [n] characters of a bracket class and returns the
    rest; [scan_query_id] walks the five groups and the four hyphens. *)
Module QueryIdScan.

Import Regex Spill.

Fixpoint take_class (ranges : list (ascii * ascii)) (n : nat) (s : string)
    : option string :=
  match n with
  | O => Some s
  | S n' =>
      match s with
      | String d s' =>
          if existsb (in_range d) ranges then take_class ranges n' s' else None
      | EmptyString => None
      end
  end.

Definition take_hyphen (s : string) : option string :=
  match s with
  | String d s' => if bool_decide ("-"%char = d) then Some s' else None
  | EmptyString => None
  end.

Definition scan_query_id (s : string) : option string :=
  s1 ← take_class hex_ranges 8 s; s1 ← take_hyphen s1;
  s2 ← take_class hex_ranges 4 s1; s2 ← take_hyphen s2;
  s3 ← take_class hex_ranges 4 s2; s3 ← take_hyphen s3;
  s4 ← take_class hex_ranges 4 s3; s4 ← take_hyphen s4;
  take_class hex_ranges 12 s4.

End QueryIdScan.

(** *** A disk to run [DirManager::init] on: one spill directory holding
    the residue of a query, a directory of another kind and an upper-case
    look-alike. *)
Module SpillDemo.

Import StatusModel Spill.

Definition residue : string := "0a1b2c3d-4e5f-6789-abcd-ef0123456789".
Definition look_alike : string := "0A1B2C3D-4E5F-6789-ABCD-EF0123456789".

Definition demo_disk : mem_fs :=
  [ ("/data/spill", [residue; "lost+found"; look_alike]);
    ("/data/spill/" +:+ residue, ["block_0"]);
    ("/data/spill/lost+found", []) ].

Definition demo_world : world mem_fs :=
  MkWorld demo_disk (MkDirManager [] 0) [].

(** A configuration naming one path. *)
Definition demo_parse (spill_dirs : string) : Status * list StorePath :=
  (OK_, [MkStorePath spill_dirs]).

Definition demo_marker : state_cells :=
  StateCells TStatusCode.INTERNAL_ERROR EmptyString EmptyString.

Definition demo_init : Status * world mem_fs :=
  init true demo_marker demo_parse ["/data/storage"] (fun _ => true) false
       66 "fs->iterate_dir(...)" "/data/spill" demo_world.

End SpillDemo.

(** ** HashJoinBuildOperator
    (exec/pipeline/hashjoin/hash_join_build_operator.cpp) *)
Module HashJoinBuild.

Import TStatusCode StatusModel.

Local Open Scope Z_scope.

Definition FILE : string :=
  "be/src/exec/pipeline/hashjoin/hash_join_build_operator.cpp".

(** *** What the operator hands around *)

Definition Chunk : Set := list Z.
Definition Columns : Set := list Z.
Definition ExprContext : Set := Z.
Definition RuntimeInFilters : Set := list ExprContext.
Definition BloomFilterBuildParams : Set := list Z.

Record RuntimeFilter : Set := MkRuntimeFilter { bf_alloc_size : Z }.

Record RuntimeFilterBuildDescriptor : Set := MkDescriptor {
  filter_id : Z;
  runtime_filter : option RuntimeFilter     (* nullptr: not built *)
}.

Definition RuntimeBloomFilters : Set := list RuntimeFilterBuildDescriptor.

Record RuntimeFilterCollector : Set := MkCollector {
  collected_in_filters : RuntimeInFilters;
  collected_bloom_filters : RuntimeBloomFilters
}.

Inductive TJoinDistributionMode : Set := BROADCAST | PARTITIONED.

#[global] Instance TJoinDistributionMode_eq_dec : EqDecision TJoinDistributionMode.
Proof. solve_decision. Defined.

(** *** The shared Joiner *)

(** The hash table and the filter computation inside the Joiner are an
    opaque capability; [C] is the type of their states. *)
Class JoinerCore (C : Type) := {
  append_chunk_to_ht : Chunk -> C -> Status * C;
  prepare_builder : C -> Status * C;
  build_ht : C -> Status * C;
  create_runtime_filters : C -> Status * C;
  get_ht_row_count : C -> Z;
  get_runtime_in_filters : C -> RuntimeInFilters;
  get_runtime_bloom_filter_build_params : C -> BloomFilterBuildParams;
  get_runtime_bloom_filters : C -> RuntimeBloomFilters;
  string_key_columns : C -> Columns;
  (* the state once the three filter lists have been moved out of it *)
  release_partial_filters : C -> C;
  avg_keys_perf_bucket : C -> Z
}.

Inductive HashJoinPhase : Set := BUILD | PROBE.

(** Modelled from the spec: the Joiner (exec/hash_joiner.h, not among
    these sources) is shared under a reference count, is "destroyed only
    when the reference count reaches zero", and is in its build phase or
    readable by probers. *)
Record HashJoiner (C : Type) : Type := MkJoiner {
  refs : Z;
  phase : HashJoinPhase;
  destroyed : bool;
  core : C
}.
Arguments MkJoiner {C} _ _ _ _.
Arguments refs {C} _.
Arguments phase {C} _.
Arguments destroyed {C} _.
Arguments core {C} _.

(** Modelled from the spec: [HashJoiner::ref()], one more owner. *)
Definition ref {C} (j : HashJoiner C) : HashJoiner C :=
  MkJoiner (refs j + 1) (phase j) (destroyed j) (core j).

(** Modelled from the spec: [HashJoiner::unref(state)]: "when the combined
    count of builder and prober references reaches zero, the Joiner's table
    and filter state are destroyed". *)
Definition unref {C} (j : HashJoiner C) : HashJoiner C :=
  MkJoiner (refs j - 1) (phase j)
           (destroyed j || bool_decide (refs j - 1 = 0)) (core j).

(** Modelled from the spec: [HashJoiner::enter_probe_phase()]: "the
    Joiner transitions into probe-readable state". *)
Definition enter_probe_phase {C} (j : HashJoiner C) : HashJoiner C :=
  MkJoiner (refs j) PROBE (destroyed j) (core j).

(** The Joiner with another state of its table. *)
Definition with_core {C} (j : HashJoiner C) (c : C) : HashJoiner C :=
  MkJoiner (refs j) (phase j) (destroyed j) c.

(** *** The merger of partial runtime filters *)

Record contribution : Set := MkContribution {
  lane : Z;
  ht_row_count : Z;
  in_filters : RuntimeInFilters;
  bloom_filter_build_params : BloomFilterBuildParams;
  bloom_filters : RuntimeBloomFilters
}.

(** Modelled from the spec: PartialRuntimeFilterMerger
    (exprs/runtime_filter_bank.h, not among these sources), section 4.4:
    it holds the expected
    builder count and the contributions; [add_partial_filters]
    "accumulates the contribution, increments a received-count; returns a
    boolean signaling whether this call was the one that completed the
    expected count"; a call after that "should surface as an internal
    error". *)
Record PartialRuntimeFilterMerger : Set := MkMerger {
  expected_builders : Z;
  contributions : list contribution;
  merged : bool;
  total_in_filters : RuntimeInFilters;
  total_bloom_filters : RuntimeBloomFilters
}.

(** Modelled from the spec: [incr_builder()] "increments expected-builder
    count". *)
Definition incr_builder (m : PartialRuntimeFilterMerger) : PartialRuntimeFilterMerger :=
  MkMerger (expected_builders m + 1) (contributions m) (merged m)
           (total_in_filters m) (total_bloom_filters m).

(** Modelled from the spec: [add_partial_filters], section 4.4; the totals
    of the completing call put the lanes' lists one after the other. *)
Definition add_partial_filters (c : contribution) (m : PartialRuntimeFilterMerger)
    : (Status + bool) * PartialRuntimeFilterMerger :=
  if merged m then
    (inl (InternalError "partial runtime filters added after the merge"), m)
  else
    let cs := contributions m ++ [c] in
    if bool_decide (Z.of_nat (length cs) = expected_builders m) then
      (inr true,
       MkMerger (expected_builders m) cs true
                (concat (map in_filters cs)) (concat (map bloom_filters cs)))
    else
      (inr false,
       MkMerger (expected_builders m) cs false
                (total_in_filters m) (total_bloom_filters m)).

(** Modelled from the spec: the merged filters of the node. *)
Definition get_total_in_filters (m : PartialRuntimeFilterMerger) := total_in_filters m.
Definition get_total_bloom_filters (m : PartialRuntimeFilterMerger) := total_bloom_filters m.

(** The merger once both totals have been moved out of it (line 139). *)
Definition release_totals (m : PartialRuntimeFilterMerger) : PartialRuntimeFilterMerger :=
  MkMerger (expected_builders m) (contributions m) (merged m) [] [].

(** *** The state the operator works in *)

(** Calls that reach a collaborator, in the words of the source. *)
Inductive call : Set :=
| call_Operator_prepare
| call_incr_builder
| call_ref
| call_unref
| call_prepare_builder
| call_append_chunk_to_ht
| call_build_ht
| call_create_runtime_filters
| call_retain_string_key_columns
| call_add_partial_filters
| call_publish_runtime_filters
| call_set_collector
| call_enter_probe_phase
| call_Operator_close.

#[global] Instance call_eq_dec : EqDecision call.
Proof. solve_decision. Defined.

Record world (C : Type) : Type := MkWorld {
  cancelled : bool;                               (* state->is_cancelled() *)
  join_builder : HashJoiner C;                    (* *_join_builder *)
  partial_rf_merger : PartialRuntimeFilterMerger; (* *_partial_rf_merger *)
  retained_string_key_columns : list Columns;     (* factory, by lane *)
  hub : gmap Z RuntimeFilterCollector;            (* runtime_filter_hub() *)
  published : list RuntimeBloomFilters;           (* runtime_filter_port() *)
  partial_runtime_bloom_filter_bytes : Z;         (* build metrics counter *)
  calls : list call                               (* oldest first *)
}.
Arguments MkWorld {C} _ _ _ _ _ _ _ _.
Arguments cancelled {C} _.
Arguments join_builder {C} _.
Arguments partial_rf_merger {C} _.
Arguments retained_string_key_columns {C} _.
Arguments hub {C} _.
Arguments published {C} _.
Arguments partial_runtime_bloom_filter_bytes {C} _.
Arguments calls {C} _.

Record HashJoinBuildOperator : Set := MkOperator {
  _plan_node_id : Z;
  _driver_sequence : Z;
  _distribution_mode : TJoinDistributionMode;
  _is_finished : bool;
  _set_finishing_once : bool;
  _avg_keys_perf_bucket : Z
}.

(** *** Control flow: fall through, [return], or a fatal check *)

Inductive result (A : Type) : Type :=
| Next (a : A)
| Return (st : Status)
| Fatal (msg : string).
Arguments Next {A} _.
Arguments Return {A} _.
Arguments Fatal {A} _.

Definition M (S A : Type) : Type := S -> result A * S.

#[global] Instance M_ret {S} : MRet (M S) := fun A a s => (Next a, s).

#[global] Instance M_bind {S} : MBind (M S) := fun A B k m s =>
  match m s with
  | (Next a, s) => k a s
  | (Return st, s) => (Return st, s)
  | (Fatal msg, s) => (Fatal msg, s)
  end.

Definition gets {S A} (f : S -> A) : M S A := fun s => (Next (f s), s).
Definition modify {S} (f : S -> S) : M S unit := fun s => (Next tt, f s).
Definition return_ {S A} (st : Status) : M S A := fun s => (Return st, s).
Definition fatal {S A} (msg : string) : M S A := fun s => (Fatal msg, s).

(** [DeferOp op(f)]: [f] runs when the scope is left by a return; a fatal
    check ends the process and unwinds nothing. *)
Definition DeferOp {S A} (f : S -> S) (body : M S A) : M S A := fun s =>
  match body s with
  | (Fatal msg, s) => (Fatal msg, s)
  | (r, s) => (r, f s)
  end.

(** How a call to a member function ends. *)
Inductive outcome (A : Type) : Type :=
| Returned (a : A)
| Crashed (msg : string).
Arguments Returned {A} _.
Arguments Crashed {A} _.

Definition function_with {S A} (of_status : Status -> A) (body : M S A) (s : S)
    : outcome A * S :=
  match body s with
  | (Next a, s) => (Returned a, s)
  | (Return st, s) => (Returned (of_status st), s)
  | (Fatal msg, s) => (Crashed msg, s)
  end.

(** A function returning [Status], and one returning [StatusOr<A>]. *)
Definition function {S} : M S Status -> S -> outcome Status * S :=
  function_with id.

Definition function_or {S A} : M S (Status + A) -> S -> outcome (Status + A) * S :=
  function_with inl.

(** glog's [CHECK(cond) << msg]: fatal when [cond] is false, in every
    build. *)
Definition CHECK {S} (cond : bool) (msg : string) : M S unit :=
  if cond then mret tt else fatal ("Check failed: " +:+ msg).

(** *** Field updates *)

Definition set_is_finished (b : bool) (op : HashJoinBuildOperator) :=
  MkOperator (_plan_node_id op) (_driver_sequence op) (_distribution_mode op)
             b (_set_finishing_once op) (_avg_keys_perf_bucket op).

Definition set_avg_keys_perf_bucket (v : Z) (op : HashJoinBuildOperator) :=
  MkOperator (_plan_node_id op) (_driver_sequence op) (_distribution_mode op)
             (_is_finished op) (_set_finishing_once op) v.

Definition set_set_finishing_once (b : bool) (op : HashJoinBuildOperator) :=
  MkOperator (_plan_node_id op) (_driver_sequence op) (_distribution_mode op)
             (_is_finished op) b (_avg_keys_perf_bucket op).

Definition set_join_builder {C} (j : HashJoiner C) (w : world C) : world C :=
  MkWorld (cancelled w) j (partial_rf_merger w) (retained_string_key_columns w)
          (hub w) (published w) (partial_runtime_bloom_filter_bytes w) (calls w).

Definition set_partial_rf_merger {C} (m : PartialRuntimeFilterMerger) (w : world C) :=
  MkWorld (cancelled w) (join_builder w) m (retained_string_key_columns w)
          (hub w) (published w) (partial_runtime_bloom_filter_bytes w) (calls w).

Definition set_retained {C} (r : list Columns) (w : world C) : world C :=
  MkWorld (cancelled w) (join_builder w) (partial_rf_merger w) r
          (hub w) (published w) (partial_runtime_bloom_filter_bytes w) (calls w).

Definition set_hub {C} (h : gmap Z RuntimeFilterCollector) (w : world C) : world C :=
  MkWorld (cancelled w) (join_builder w) (partial_rf_merger w)
          (retained_string_key_columns w) h (published w)
          (partial_runtime_bloom_filter_bytes w) (calls w).

Definition set_published {C} (p : list RuntimeBloomFilters) (w : world C) : world C :=
  MkWorld (cancelled w) (join_builder w) (partial_rf_merger w)
          (retained_string_key_columns w) (hub w) p
          (partial_runtime_bloom_filter_bytes w) (calls w).

Definition set_bloom_filter_bytes {C} (n : Z) (w : world C) : world C :=
  MkWorld (cancelled w) (join_builder w) (partial_rf_merger w)
          (retained_string_key_columns w) (hub w) (published w) n (calls w).

Definition add_call {C} (c : call) (w : world C) : world C :=
  MkWorld (cancelled w) (join_builder w) (partial_rf_merger w)
          (retained_string_key_columns w) (hub w) (published w)
          (partial_runtime_bloom_filter_bytes w) (calls w ++ [c]).

(** [HashJoinBuildOperatorFactory::create], lines 167-175: the slots for
    the retained key columns, and the operator of the lane. *)
Definition create (plan_node_id : Z) (mode : TJoinDistributionMode)
    (dop : nat) (driver_sequence : Z) (string_key_columns_ : list Columns)
    : HashJoinBuildOperator * list Columns :=
  (MkOperator plan_node_id driver_sequence mode false false 0,
   if bool_decide (string_key_columns_ = []) then replicate dop []
   else string_key_columns_).

(** lines 126-131: [std::accumulate] over [size_t]. *)
Definition total_bf_bytes (bloom_filters : RuntimeBloomFilters) : Z :=
  fold_left
    (fun total desc =>
       (total + match runtime_filter desc with
                | None => 0
                | Some rf => bf_alloc_size rf
                end) mod 2 ^ 64)
    bloom_filters 0.

Section Operator.

Context {C : Type} `{JoinerCore C}.

(** [STARROCKS_ASSERT_STATUS_CHECKED] and the moved-from marker, as in
    [StatusModel]. *)
Variable chk : bool.
Variable g : state_cells.

(** [NDEBUG] is defined: [DCHECK] expands to nothing. *)
Variable NDEBUG : bool.

(** The detectors of util/race_detect.h are compiled in. *)
Variable ONCE_DETECTORS : bool.

(** The Status [Operator::prepare(state)] returns (the base class is in
    exec/pipeline/operator.cpp). *)
Variable Operator_prepare : Status.

(** [*this] and everything it reaches. *)
Definition state : Type := HashJoinBuildOperator * world C.

Definition DCHECK (cond : bool) (msg : string) : M state unit :=
  if NDEBUG then mret tt else CHECK cond msg.

Definition RETURN_IF_ERROR_ (st : Status) (line : Z) (stmt : string)
    : M state unit :=
  match RETURN_IF_ERROR chk g st FILE line stmt with
  | Some e => return_ e
  | None => mret tt
  end.

Definition log (c : call) : M state unit :=
  modify (fun s : state => (s.1, add_call c s.2)).

(** A call into the hash table behind [_join_builder]. *)
Definition on_core (c : call) (f : C -> Status * C) : M state Status :=
  fun s : state =>
    let '(st, k) := f (core (join_builder s.2)) in
    (Next st,
     (s.1, add_call c (set_join_builder (with_core (join_builder s.2) k) s.2))).

Definition on_joiner (c : call) (f : HashJoiner C -> HashJoiner C) : M state unit :=
  modify (fun s : state =>
            (s.1, add_call c (set_join_builder (f (join_builder s.2)) s.2))).

Definition on_merger (c : call)
    (f : PartialRuntimeFilterMerger -> PartialRuntimeFilterMerger) : M state unit :=
  modify (fun s : state =>
            (s.1, add_call c (set_partial_rf_merger (f (partial_rf_merger s.2)) s.2))).

(** lines 36-38 *)
Definition push_chunk (chunk : Chunk) : M state Status :=
  on_core call_append_chunk_to_ht (append_chunk_to_ht chunk).

(** lines 40-55 *)
Definition prepare : M state Status :=
  log call_Operator_prepare;;
  RETURN_IF_ERROR_ Operator_prepare 41 "Operator::prepare(state)";;
  on_merger call_incr_builder incr_builder;;
  (* For prober. *)
  on_joiner call_ref ref;;
  (* For builder. *)
  on_joiner call_ref ref;;
  st ← on_core call_prepare_builder prepare_builder;
  RETURN_IF_ERROR_ st 52
    "_join_builder->prepare_builder(state, _unique_metrics.get())";;
  mret OK_.

(** lines 56-60 *)
Definition close : M state unit :=
  on_joiner call_unref unref;;
  log call_Operator_close.

(** lines 62-66 *)
Definition pull_chunk : M state (Status + Chunk) :=
  let msg := "pull_chunk not supported in HashJoinBuildOperator"%string in
  CHECK false msg;;
  mret (inl (NotSupported msg)).

(** [ONCE_DETECT(_set_finishing_once)], line 83.  The macro comes from
    util/race_detect.h, which is not part of these sources.  It is a
    detector: where detectors are compiled in, the first entry sets the
    flag and another entry fails a fatal check; elsewhere it expands to
    nothing.  In neither case does it return from the function. *)
Definition ONCE_DETECT : M state unit :=
  if ONCE_DETECTORS then
    once ← gets (fun s : state => _set_finishing_once s.1);
    CHECK (negb once) "_set_finishing_once entered more than once";;
    modify (fun s : state => (set_set_finishing_once true s.1, s.2))
  else mret tt.

(** line 177-179: [_string_key_columns[driver_sequence] = columns]; the
    vector has [dop] slots, and an index outside of it is undefined
    behaviour in the source. *)
Definition retain_string_key_columns (driver_sequence : Z) (columns : Columns)
    : M state unit :=
  modify (fun s : state =>
    (s.1, add_call call_retain_string_key_columns
            (set_retained
               (<[Z.to_nat driver_sequence := columns]>
                  (retained_string_key_columns s.2)) s.2))).

(** lines 112-118: the three lists are moved out of the Joiner and into
    the merger. *)
Definition submit_partial_filters (c : contribution) : M state (Status + bool) :=
  fun s : state =>
    let '(r, m) := add_partial_filters c (partial_rf_merger s.2) in
    let j := join_builder s.2 in
    (Next r,
     (s.1, add_call call_add_partial_filters
             (set_partial_rf_merger m
                (set_join_builder
                   (with_core j (release_partial_filters (core j))) s.2)))).

(** lines 122-139 *)
Definition publish_merged : M state unit :=
  m ← gets (fun s : state => partial_rf_merger s.2);
  let in_filters := get_total_in_filters m in
  let bloom_filters := get_total_bloom_filters m in
  modify (fun s : state =>
    (s.1, set_bloom_filter_bytes
            (partial_runtime_bloom_filter_bytes s.2 + total_bf_bytes bloom_filters)
            s.2));;
  (* publish runtime bloom-filters *)
  modify (fun s : state =>
    (s.1, add_call call_publish_runtime_filters
            (set_published (published s.2 ++ [bloom_filters]) s.2)));;
  (* move runtime filters into RuntimeFilterHub. *)
  modify (fun s : state =>
    (s.1, add_call call_set_collector
            (set_hub (<[_plan_node_id s.1 := MkCollector in_filters bloom_filters]>
                        (hub s.2))
               (set_partial_rf_merger (release_totals m) s.2)))).

(** lines 86-144, the scope guarded by the [DeferOp] of line 84. *)
Definition set_finishing_body : M state Status :=
  is_cancelled ← gets (fun s : state => cancelled s.2);
  (if is_cancelled : bool
   then return_ (Cancelled "runtime state is cancelled")
   else mret tt);;
  st ← on_core call_build_ht build_ht;
  RETURN_IF_ERROR_ st 89 "_join_builder->build_ht(state)";;
  merger_index ← gets (fun s : state => _driver_sequence s.1);
  (* Broadcast Join only has one build operator. *)
  distribution_mode ← gets (fun s : state => _distribution_mode s.1);
  DCHECK (negb (bool_decide (distribution_mode = BROADCAST))
          || bool_decide (merger_index = 0))
    "_distribution_mode != TJoinDistributionMode::BROADCAST || _driver_sequence == 0";;
  st ← on_core call_create_runtime_filters create_runtime_filters;
  RETURN_IF_ERROR_ st 95 "_join_builder->create_runtime_filters(state)";;
  j ← gets (fun s : state => core (join_builder s.2));
  let ht_row_count := get_ht_row_count j in
  let partial_in_filters := get_runtime_in_filters j in
  let partial_bloom_filter_build_params := get_runtime_bloom_filter_build_params j in
  let partial_bloom_filters := get_runtime_bloom_filters j in
  retain_string_key_columns merger_index (string_key_columns j);;
  status ← submit_partial_filters
             (MkContribution merger_index ht_row_count partial_in_filters
                partial_bloom_filter_build_params partial_bloom_filters);
  match status with
  | inl e => return_ (copy_construct chk g e).1
  | inr true => publish_merged
  | inr false => mret tt
  end;;
  on_joiner call_enter_probe_phase enter_probe_phase;;
  mret OK_.

(** lines 82-145 *)
Definition set_finishing : M state Status :=
  ONCE_DETECT;;
  DeferOp (fun s : state => (set_is_finished true s.1, s.2))
    set_finishing_body.

End Operator.

End HashJoinBuild.

(** *** A hash table to run the operator on

    Rows are keys; [build_ht] can be told to fail.  The in-filter of a lane
    lists its keys and its bloom filter takes eight bytes a row. *)
Module HashJoinDemo.

Import TStatusCode StatusModel HashJoinBuild.

Local Open Scope Z_scope.

Record table : Set := MkTable {
  table_rows : list Z;
  table_built : bool;
  table_in_filters : RuntimeInFilters;
  table_bloom_filters : RuntimeBloomFilters;
  build_fails : bool
}.

#[global] Instance table_core : JoinerCore table := {
  append_chunk_to_ht chunk t :=
    (OK_, MkTable (table_rows t ++ chunk) (table_built t) (table_in_filters t)
                  (table_bloom_filters t) (build_fails t));
  prepare_builder t := (OK_, t);
  build_ht t :=
    if build_fails t then (InternalError "hash table build failed", t)
    else (OK_, MkTable (table_rows t) true (table_in_filters t)
                       (table_bloom_filters t) (build_fails t));
  create_runtime_filters t :=
    (OK_, MkTable (table_rows t) (table_built t) (table_rows t)
            [MkDescriptor 1 (Some (MkRuntimeFilter (8 * Z.of_nat (length (table_rows t)))))]
            (build_fails t));
  get_ht_row_count t := Z.of_nat (length (table_rows t));
  get_runtime_in_filters := table_in_filters;
  get_runtime_bloom_filter_build_params t := [Z.of_nat (length (table_rows t))];
  get_runtime_bloom_filters := table_bloom_filters;
  string_key_columns t := table_rows t;
  release_partial_filters t :=
    MkTable (table_rows t) (table_built t) [] [] (build_fails t);
  avg_keys_perf_bucket _ := 1
}.

Definition marker : state_cells := StateCells INTERNAL_ERROR EmptyString EmptyString.

Definition empty_table : table := MkTable [] false [] [] false.

(** A join node (plan node 7) before any lane is prepared. *)
Definition fresh_world (dop : nat) : world table :=
  MkWorld false (MkJoiner 0 BUILD false empty_table)
          (MkMerger 0 [] false [] []) (replicate dop []) ∅ [] 0 [].

Definition lane_operator (mode : TJoinDistributionMode) (seq : Z)
    : HashJoinBuildOperator :=
  MkOperator 7 seq mode false false 0.

(** One broadcast lane: prepared, fed three rows. *)
Definition fed_lane : state (C := table) :=
  let s0 := (lane_operator BROADCAST 0, fresh_world 1) in
  let s1 := (function (prepare false marker OK_) s0).2 in
  (push_chunk [10; 20; 30] s1).2.

Definition cancel (s : state (C := table)) : state (C := table) :=
  (s.1, MkWorld true (join_builder s.2) (partial_rf_merger s.2)
          (retained_string_key_columns s.2) (hub s.2) (published s.2)
          (partial_runtime_bloom_filter_bytes s.2) (calls s.2)).

(** [set_finishing] on that lane, twice: in a release build ([NDEBUG], no
    detectors, no status checking) and in a checking build. *)
Definition first_call : outcome Status * state (C := table) :=
  function (set_finishing false marker true false) fed_lane.

Definition second_call : outcome Status * state (C := table) :=
  function (set_finishing false marker true false) first_call.2.

Definition checking_first_call : outcome Status * state (C := table) :=
  function (set_finishing true marker false true) fed_lane.

Definition checking_second_call : outcome Status * state (C := table) :=
  function (set_finishing true marker false true) checking_first_call.2.

(** Two partitioned lanes of one join node, each fed two rows; lane 0
    finishes first. *)
Definition two_lanes : world table :=
  let w0 := fresh_world 2 in
  let s0 := (function (prepare false marker OK_) (lane_operator PARTITIONED 0, w0)).2 in
  let s1 := (function (prepare false marker OK_) (lane_operator PARTITIONED 1, s0.2)).2 in
  s1.2.

Definition lane0_finishing : outcome Status * state (C := table) :=
  let fed := (push_chunk [1; 2] (lane_operator PARTITIONED 0, two_lanes)).2 in
  function (set_finishing false marker true false) fed.

Definition lane1_finishing : outcome Status * state (C := table) :=
  let w := lane0_finishing.2.2 in
  let j := join_builder w in
  (* lane 1 builds its own partition *)
  let w := set_join_builder (with_core j empty_table) w in
  let fed := (push_chunk [3; 4] (lane_operator PARTITIONED 1, w)).2 in
  function (set_finishing false marker true false) fed.

End HashJoinDemo.

(** ** More of status.h: the remaining factories, the fault-injection
    tables and a sequence of updates *)
Module StatusMore.

Import TStatusCode StatusModel.

(** lines 135-200, the factories not yet named. *)
Definition Unknown (msg : string) := Status_ctor UNKNOWN msg.
Definition PublishTimeout (msg : string) := Status_ctor PUBLISH_TIMEOUT msg.
Definition MemoryAllocFailed (msg : string) := Status_ctor MEM_ALLOC_FAILED msg.
Definition BufferAllocFailed (msg : string) :=
  Status_ctor BUFFER_ALLOCATION_FAILED msg.
Definition MinimumReservationUnavailable (msg : string) :=
  Status_ctor MINIMUM_RESERVATION_UNAVAILABLE msg.
Definition Corruption (msg : string) := Status_ctor CORRUPTION msg.
Definition AlreadyExist (msg : string) := Status_ctor ALREADY_EXIST msg.
Definition EndOfFile (msg : string) := Status_ctor END_OF_FILE msg.
Definition ServiceUnavailable (msg : string) := Status_ctor SERVICE_UNAVAILABLE msg.
Definition Uninitialized (msg : string) := Status_ctor UNINITIALIZED msg.
Definition Aborted (msg : string) := Status_ctor ABORTED msg.
Definition DataQualityError (msg : string) := Status_ctor DATA_QUALITY_ERROR msg.
Definition VersionAlreadyMerged (msg : string) :=
  Status_ctor OLAP_ERR_VERSION_ALREADY_MERGED msg.
Definition DuplicateRpcInvocation (msg : string) :=
  Status_ctor DUPLICATE_RPC_INVOCATION msg.
(* TODO(mofei) define json format error. *)
Definition JsonFormatError (msg : string) := Status_ctor DATA_QUALITY_ERROR msg.
Definition GlobalDictError (msg : string) := Status_ctor GLOBAL_DICT_ERROR msg.
Definition TransactionInProcessing (msg : string) :=
  Status_ctor TXN_IN_PROCESSING msg.
Definition TransactionNotExists (msg : string) := Status_ctor TXN_NOT_EXISTS msg.
Definition LabelAlreadyExists (msg : string) := Status_ctor LABEL_ALREADY_EXISTS msg.
Definition ResourceBusy (msg : string) := Status_ctor RESOURCE_BUSY msg.

(** lines 227-235 *)
Definition is_end_of_file (chk : bool) (g : state_cells) (s : Status)
    : bool * Status :=
  let s := mark_checked chk s in
  let '(c, s) := code chk g s in (bool_decide (c = END_OF_FILE), s).

Definition is_ok_or_eof (chk : bool) (g : state_cells) (s : Status)
    : bool * Status :=
  let s := mark_checked chk s in
  let '(b, s) := ok chk s in
  if b then (true, s) else is_end_of_file chk g s.

(** [StatusInstance::random], lines 463-486. *)
Definition random : list (string -> Status) :=
  [ Unknown; PublishTimeout; MemoryAllocFailed; BufferAllocFailed;
    InvalidArgument; MinimumReservationUnavailable; Corruption; IOError;
    NotFound; AlreadyExist; NotSupported; EndOfFile; ServiceUnavailable;
    Uninitialized; Aborted; DataQualityError; VersionAlreadyMerged;
    DuplicateRpcInvocation; JsonFormatError; GlobalDictError;
    TransactionInProcessing; TransactionNotExists; LabelAlreadyExists;
    ResourceBusy ].

(** [StatusInstance::codes], lines 488-511. *)
Definition codes : list TStatusCode.type :=
  [ UNKNOWN; PUBLISH_TIMEOUT; MEM_ALLOC_FAILED; BUFFER_ALLOCATION_FAILED;
    INVALID_ARGUMENT; MINIMUM_RESERVATION_UNAVAILABLE; CORRUPTION; IO_ERROR;
    NOT_FOUND; ALREADY_EXIST; NOT_IMPLEMENTED_ERROR; END_OF_FILE;
    SERVICE_UNAVAILABLE; UNINITIALIZED; ABORTED; DATA_QUALITY_ERROR;
    OLAP_ERR_VERSION_ALREADY_MERGED; DUPLICATE_RPC_INVOCATION;
    DATA_QUALITY_ERROR; GLOBAL_DICT_ERROR; TXN_IN_PROCESSING; TXN_NOT_EXISTS;
    LABEL_ALREADY_EXISTS; RESOURCE_BUSY ].

(** line 513: the number of entries of [random]. *)
Definition SIZE : nat := length random.

Section Inject.

(** How [operator<<] writes a [TStatusCode::type] (generated code). *)
Variable show_code : TStatusCode.type -> string.

(** [RETURN_INJECT(index)], lines 516-520, for an [index] of type
    [uint32_t]: the Status returned, if the tables have the entry. *)
Definition RETURN_INJECT (index : Z) (FILE : string) (LINE : Z) : option Status :=
  let i := Z.to_nat (index mod Z.of_nat SIZE) in
  c ← codes !! i;
  f ← random !! i;
  Some (f ("INJECT ERROR: " +:+ FILE +:+ " " +:+ pretty LINE +:+ " "
           +:+ show_code c)).

Variable chk : bool.
Variable g : state_cells.

(** [RETURN_IF_ERROR(stmt)] under ENABLE_STATUS_FAILED, lines 522-536.
    [seed] is what [rand_r] gave, [boundary_value] the bound computed from
    [get_cardinality_of_inject()], [in_directory] the answer of
    [in_directory_of_inject(__FILE__)]; [stmt] acts on a state [S].  The
    result is the Status the enclosing function returns, if it returns
    here, and the state. *)
Definition RETURN_IF_ERROR_injecting {S : Type}
    (seed boundary_value : Z) (in_directory : bool)
    (stmt : S -> Status * S) (FILE : string) (LINE : Z) (text : string)
    (s : S) : option Status * S :=
  if (seed <=? boundary_value)%Z && in_directory then
    (RETURN_INJECT seed FILE LINE, s)
  else
    let '(status__, s) := stmt s in
    (RETURN_IF_ERROR chk g status__ FILE LINE text, s).

(** [overall.update(st)] for each [st] of a sequence in turn, the way
    results of several steps are folded into one. *)
Definition update_all (overall : Status) (sts : list Status) : Status :=
  fold_left (fun acc st => (update chk g acc st).1) sts overall.

(** The first Status of a sequence that is not ok. *)
Definition first_failure (sts : list Status) : option Status :=
  head (filter (fun st => _state st <> nullptr) sts).

(** A Status as a constructor, a copy, a move or an assignment leaves it. *)
Inductive fresh : Status -> Prop :=
| fresh_default : fresh default_Status
| fresh_ctor c msg ctx : fresh (Status_ctor3 c msg ctx)
| fresh_copy s : fresh (copy_construct chk g s).1
| fresh_move s : fresh (move_construct chk s).1
| fresh_copy_assign this s : fresh (copy_assign chk g this s).1.1
| fresh_move_assign this s : fresh (move_assign chk this s).1.1.

(** [inspected s s']: [s'] is [s] after one of the calls that inspect it. *)
Inductive inspected : Status -> Status -> Prop :=
| inspected_ok s : inspected s (ok chk s).2
| inspected_code s : inspected s (code chk g s).2
| inspected_is_cancelled s : inspected s (is_cancelled chk g s).2
| inspected_is_not_found s : inspected s (is_not_found chk g s).2
| inspected_is_not_supported s : inspected s (is_not_supported chk g s).2
| inspected_is_end_of_file s : inspected s (is_end_of_file chk g s).2
| inspected_is_ok_or_eof s : inspected s (is_ok_or_eof chk g s).2
| inspected_permit s : inspected s (permit_unchecked_error chk s).

End Inject.

End StatusMore.

(** ** More of dir_manager.cpp: [acquire_writable_dir] *)
Module SpillMore.

Import StatusModel Spill.

(** The characters a name of a residual directory is made of. *)
Definition plain_chars : list ascii := list_ascii_of_string "0123456789abcdef-".

(** The configured paths that pass the read-write test. *)
Definition usable (check_datapath_rw : string -> bool) (paths : list StorePath)
    : list StorePath :=
  List.filter (fun p => check_datapath_rw (path p)) paths.

(** What [CreateSharedFromString] hands back in place of a file system is
    a failure. *)
Definition fs_failures_fail (F : Type) `{FileSystem F} : Prop :=
  forall p (f : F) e, CreateSharedFromString p f = Some e -> _state e <> nullptr.

(** [init] with the disk of [SpillDemo] when the spill path is also a
    storage root path. *)
Definition conflicting_init : Status * world mem_fs :=
  init true SpillDemo.demo_marker SpillDemo.demo_parse ["/data/spill"]
       (fun _ => true) false 66 "fs->iterate_dir(...)"
       "/data/spill" SpillDemo.demo_world.

Section Acquire.

(** The number of values of the type of [_idx]; the member is declared in
    dir_manager.h, which is not among these sources. *)
Variable IDX_VALUES : N.

(** [DirManager::acquire_writable_dir], lines 84-88: [_idx++ %
    _dirs.size()], then [_dirs[idx]].  With no directory the source divides
    by zero; [Nat.modulo] gives the dividend and the lookup finds nothing. *)
Definition acquire_writable_dir (m : DirManager) : option string * DirManager :=
  let idx := (_idx m mod length (_dirs m))%nat in
  (_dirs m !! idx,
   MkDirManager (_dirs m) (N.to_nat ((N.of_nat (_idx m) + 1) mod IDX_VALUES))).

(** [k] calls in a row: what they returned, first call first. *)
Fixpoint acquire_many (k : nat) (m : DirManager)
    : list (option string) * DirManager :=
  match k with
  | O => ([], m)
  | S k' =>
      let '(d, m) := acquire_writable_dir m in
      let '(ds, m) := acquire_many k' m in
      (d :: ds, m)
  end.

End Acquire.

End SpillMore.

(** ** Integer conversions of the sources *)
Module Casts.

Local Open Scope Z_scope.

(** [static_cast<int64_t>(v)], and the conversion of an unsigned value
    stored into an [int64_t]: the value modulo 2^64 in [-2^63, 2^63). *)
Definition to_int64 (v : Z) : Z := (v + 2 ^ 63) mod 2 ^ 64 - 2 ^ 63.

End Casts.

(** ** More of hash_join_build_operator.cpp:
    [output_amplification_factor] *)
Module HashJoinBuildMore.

Import StatusModel HashJoinBuild Casts.

Local Open Scope Z_scope.

Section Operator.

Context {C : Type} `{JoinerCore C}.

(** The operator, what it reaches, and the counters of [_unique_metrics]
    by name. *)
Definition profiled : Type := state (C := C) * gmap string Z.

(** lines 68-80; [_avg_keys_perf_bucket] is a mutable [size_t]. *)
Definition output_amplification_factor (s : profiled) : Z * profiled :=
  let '((op, w), counters) := s in
  if bool_decide (_avg_keys_perf_bucket op > 0) then
    (_avg_keys_perf_bucket op, s)
  else
    let v := avg_keys_perf_bucket (core (join_builder w)) in
    let v := Z.max v 1 in
    (v, ((set_avg_keys_perf_bucket v op, w),
         <["AvgKeysPerBuckets"%string := to_int64 v]> counters)).

End Operator.

(** The bytes a descriptor adds in the sum of lines 126-131. *)
Definition bf_size (desc : RuntimeFilterBuildDescriptor) : Z :=
  match runtime_filter desc with
  | None => 0
  | Some rf => bf_alloc_size rf
  end.

(** The calls [set_finishing] can make, in the order of the source. *)
Definition set_finishing_calls : list call :=
  [call_build_ht; call_create_runtime_filters; call_retain_string_key_columns;
   call_add_partial_filters; call_publish_runtime_filters; call_set_collector;
   call_enter_probe_phase].

End HashJoinBuildMore.

(** A lane whose hash table cannot be built. *)
Module HashJoinDemoMore.

Import StatusModel HashJoinBuild HashJoinDemo.

Local Open Scope Z_scope.

Definition failing_lane : state (C := table) :=
  (fed_lane.1,
   set_join_builder
     (with_core (join_builder fed_lane.2) (MkTable [10; 20; 30] false [] [] true))
     fed_lane.2).

End HashJoinDemoMore.

(** ** connector/connector.h: the read limit of a DataSource *)
Module Connector.

Import Casts.

Local Open Scope Z_scope.

(** Of [DataSource], lines 37-72, the member the framework sets from a
    number. *)
Record DataSource : Set := MkDataSource {
  _read_limit : Z   (* int64_t *)
}.

(** line 66: [int64_t _read_limit = -1; // no limit] *)
Definition new_DataSource : DataSource := MkDataSource (-1).

(** line 62: [void set_read_limit(const uint64_t limit) { _read_limit = limit; }],
    the conversion of the unsigned argument to the signed member written
    out. *)
Definition set_read_limit (limit : Z) (d : DataSource) : DataSource :=
  MkDataSource (to_int64 limit).

End Connector.

(** ** udf/java/utils.cpp: [call_function_in_pthread] *)
Module UdfUtils.

Import StatusModel.

(** What the function reads of [RuntimeState]; trackers and ids by their
    identity. *)
Record RuntimeState : Set := MkRuntimeState {
  instance_mem_tracker : N;
  query_id : N;
  fragment_instance_id : N
}.

(** The thread-local status of a thread, [tls_thread_status], as the
    function uses it: the tracker in place can be replaced, the call
    answering the one replaced; [SCOPED_SET_TRACE_INFO] sets the trace
    information on entry of a scope and puts the former back on exit. *)
Class CurrentThread (T : Type) := {
  mem_tracker : T -> N;
  set_mem_tracker : N -> T -> N * T;
  trace_info : Type;
  set_trace_info : N -> N -> T -> trace_info * T;
  restore_trace_info : trace_info -> T -> T
}.

(** [std::promise<Status>]: empty until a value is set; a second value is
    refused ([std::future_error]). *)
Definition PromiseStatus : Type := option Status.

Definition set_value (st : Status) (promise : PromiseStatus)
    : option PromiseStatus :=
  match promise with
  | None => Some (Some st)
  | Some _ => None
  end.

Section CallInPthread.

Variable ASSERT_STATUS_CHECKED : bool.
Variable g_moved_from_state : state_cells.

Context {T : Type} `{CurrentThread T}.

(** What a thread pool runs: on the thread that takes it, with the promise
    it captured. *)
Definition task : Type := T -> PromiseStatus -> option (T * PromiseStatus).

(** The closure of lines 21-30.  At the end of the inner block the locals
    die in the reverse order of their declaration: the [DeferOp] first,
    then the trace scope. *)
Definition offered (state : RuntimeState) (func : T -> Status * T) : task :=
  fun t promise =>
    let st := default_Status in
    let '(prev_tracker, t) := set_mem_tracker (instance_mem_tracker state) t in
    let '(scope, t) :=
      set_trace_info (query_id state) (fragment_instance_id state) t in
    let '(r, t) := func t in
    let '(st, _, _) := move_assign ASSERT_STATUS_CHECKED st r in
    let t := (set_mem_tracker prev_tracker t).2 in
    let t := restore_trace_info scope t in
    let '(v, st) := copy_construct ASSERT_STATUS_CHECKED g_moved_from_state st in
    promise ← set_value v promise;
    Some (t, promise).

(** The caller, its pool and what the call gives back. *)
Record called : Type := MkCalled {
  ms : PromiseStatus;
  caller : T;
  udf_call_pool : list task
}.

(** lines 18-35; [bthread_self] tells whether the caller runs in a
    bthread, [pool] holds what was offered to [udf_call_pool()] so far. *)
Definition call_function_in_pthread (bthread_self : bool)
    (state : RuntimeState) (func : T -> Status * T)
    (t : T) (pool : list task) : option called :=
  let ms : PromiseStatus := None in
  if bthread_self then
    Some (MkCalled ms t (pool ++ [offered state func]))
  else
    let '(r, t) := func t in
    let '(v, _) := move_construct ASSERT_STATUS_CHECKED r in
    ms ← set_value v ms;
    Some (MkCalled ms t pool).

(** What the function needs of the thread-local status: replacing the
    tracker answers the one in place and installs the new one; the trace
    scope leaves the tracker alone. *)
Definition tracker_laws : Prop :=
  (forall m t, (set_mem_tracker m t).1 = mem_tracker t
               /\ mem_tracker (set_mem_tracker m t).2 = m)
  /\ (forall q i t, mem_tracker (set_trace_info q i t).2 = mem_tracker t)
  /\ (forall sc t, mem_tracker (restore_trace_info sc t) = mem_tracker t).

End CallInPthread.

(** A thread that has a tracker and a trace id, and a function that
    reports the tracker it ran under and leaves another one in place. *)
Record demo_thread : Set := MkThread {
  demo_tracker : N;
  demo_trace : N * N
}.

#[global] Instance demo_current_thread : CurrentThread demo_thread := {
  mem_tracker := demo_tracker;
  set_mem_tracker m t := (demo_tracker t, MkThread m (demo_trace t));
  trace_info := N * N;
  set_trace_info q i t := (demo_trace t, MkThread (demo_tracker t) (q, i));
  restore_trace_info sc t := MkThread (demo_tracker t) sc
}.

Definition demo_func (t : demo_thread) : Status * demo_thread :=
  ((if bool_decide (demo_tracker t = 5%N) then OK_
    else InternalError "wrong tracker"),
   MkThread 99 (demo_trace t)).

End UdfUtils.

(** ** What [init] leaves in the spill directories *)
Module SpillLaws.

Import StatusModel Regex Spill.

(** The names of a listing that the pattern does not accept. *)
Definition surviving (names : list string) : list string :=
  List.filter (fun n => negb (regex_match n query_id_pattern)) names.

Section Laws.

Context {F : Type} `{FileSystem F}.

(** The names [iterate_dir] shows for a directory. *)
Definition entries (dir : string) (d : F) : list string :=
  (dir_entries dir d).2.

(** What is expected of the file system for the spill directories [dirs]:
    [delete_dir_recursive] takes the entry it is given out of the listing
    of its directory and leaves the other entries there; it leaves the
    listings of the other spill directories alone (no spill directory
    lies within another); and [create_dir_if_missing] of a spill
    directory changes the listing of none. *)
Definition spill_dir_laws (dirs : list string) : Prop :=
  (forall p n d, p ∈ dirs ->
     entries p (delete_dir_recursive (sub_path p n) d).2
     = filter (fun m => m <> n) (entries p d))
  /\ (forall p q n d, p ∈ dirs -> q ∈ dirs -> q <> p ->
        entries p (delete_dir_recursive (sub_path q n) d).2 = entries p d)
  /\ (forall p q d, p ∈ dirs -> q ∈ dirs ->
        entries p (create_dir_if_missing q d).2 = entries p d).

End Laws.

(** What the in-memory file system lists for a directory. *)
Definition listing (p : string) (fs : mem_fs) : list string :=
  match mem_lookup p fs with Some names => names | None => [] end.

End SpillLaws.

(** A file system that knows the directories that are mounted and can
    create no other. *)
Module SpillMounts.

Import StatusModel Spill.

Record mounts : Set := MkMounts { mounted : list string }.

#[global] Instance mounts_FileSystem : FileSystem mounts := {
  CreateSharedFromString _ _ := None;
  create_dir_if_missing dir fs :=
    (if bool_decide (dir ∈ mounted fs) then OK_
     else IOError ("cannot create " +:+ dir), fs);
  dir_entries _ _ := (OK_, []);
  delete_dir_recursive _ fs := (OK_, fs)
}.

(** A configuration naming two paths, the second of them not mounted. *)
Definition two_paths (spill_dirs : string) : Status * list StorePath :=
  (OK_, [MkStorePath "/mnt/a"; MkStorePath "/mnt/b"]).

Definition half_mounted : world mounts :=
  MkWorld (MkMounts ["/mnt/a"]) (MkDirManager [] 0) [].

Definition half_mounted_init : Status * world mounts :=
  init true SpillDemo.demo_marker two_paths [] (fun _ => true) false
       66 "fs->iterate_dir(...)" "/mnt/a;/mnt/b" half_mounted.

End SpillMounts.

(** * Properties *)

(** ** Properties of Status *)
Module StatusProps.

Import TStatusCode StatusModel.

Lemma length_substring_le (n : nat) (s : string) :
  String.length (substring 0 n s) <= n.
Proof.
  revert s; induction n as [|n IH]; intros [|c s]; simpl; try lia.
  specialize (IH s); lia.
Qed.

Lemma substring_all (n : nat) (s : string) :
  String.length s <= n -> substring 0 n s = s.
Proof.
  revert s; induction n as [|n IH]; intros [|c s]; simpl; intros H;
    try reflexivity; try lia.
  f_equal; apply IH; lia.
Qed.

Lemma truncate_short (s : string) :
  String.length s <= UINT16_MAX -> truncate s = s.
Proof. apply substring_all. Qed.

Lemma truncate_empty : truncate EmptyString = EmptyString.
Proof. apply truncate_short; simpl; lia. Qed.

Section WithBuild.

Variable chk : bool.
Variable g : state_cells.

Lemma state_mark_checked (s : Status) : _state (mark_checked chk s) = _state s.
Proof. unfold mark_checked; destruct chk; reflexivity. Qed.

Lemma state_must_check (s : Status) : _state (must_check chk s) = _state s.
Proof. unfold must_check; destruct chk; reflexivity. Qed.

Lemma checked_mark_checked (s : Status) :
  _checked (mark_checked chk s) = chk || _checked s.
Proof. unfold mark_checked; destruct chk; reflexivity. Qed.

(** A copy has the cells of its source. *)
Lemma cells_copy_state (p : state_ptr) : cells g (copy_state g p) = cells g p.
Proof. unfold copy_state; destruct p; reflexivity. Qed.

Lemma state_copy_construct (s : Status) :
  cells g (_state (copy_construct chk g s).1) = cells g (_state s)
  /\ _state (copy_construct chk g s).2 = _state s.
Proof.
  unfold copy_construct; simpl.
  rewrite state_must_check, state_mark_checked; simpl.
  split; [|reflexivity].
  case_bool_decide as E; [rewrite E; reflexivity | apply cells_copy_state].
Qed.

Lemma state_move_construct (s : Status) :
  _state (move_construct chk s).1 = _state s
  /\ _state (move_construct chk s).2 = moved_from_state.
Proof.
  unfold move_construct; simpl.
  rewrite state_must_check, state_mark_checked; split; reflexivity.
Qed.

Lemma state_copy_assign (this s : Status) :
  cells g (_state (copy_assign chk g this s).1.1) = cells g (_state s)
  /\ _state (copy_assign chk g this s).1.2 = _state s.
Proof.
  unfold copy_assign.
  pose proof (state_copy_construct s) as [H1 H2].
  destruct (copy_construct chk g s) as [tmp s']; simpl in *.
  rewrite state_must_check; simpl; split; assumption.
Qed.

Lemma state_move_assign (this s : Status) :
  _state (move_assign chk this s).1.1 = _state s
  /\ _state (move_assign chk this s).1.2 = moved_from_state.
Proof.
  unfold move_assign.
  pose proof (state_move_construct s) as [H1 H2].
  destruct (move_construct chk s) as [tmp s']; simpl in *.
  rewrite state_must_check; simpl; split; assumption.
Qed.

(** The temporary of an assignment is checked before it dies. *)
Lemma assign_tmp_not_reported (this s : Status) :
  reported_unchecked (copy_assign chk g this s).2 = false
  /\ reported_unchecked (move_assign chk this s).2 = false.
Proof.
  unfold copy_assign, move_assign, copy_construct, move_construct, destroy,
    mark_checked, must_check.
  destruct chk; simpl; split; reflexivity.
Qed.

Lemma observers_of_cells (p q : state_ptr) :
  cells g p = cells g q ->
  code_of g p = code_of g q /\ message_of g p = message_of g q
  /\ context_of g p = context_of g q.
Proof. unfold code_of, message_of, context_of; intros ->; auto. Qed.

Ltac status_simpl :=
  repeat (progress (rewrite ?state_must_check, ?state_mark_checked; simpl)).

(** What [update] leaves in [*this]. *)
Lemma update_state (s n : Status) :
  cells g (_state (update chk g s n).1)
  = if bool_decide (_state s = nullptr) then cells g (_state n)
    else cells g (_state s).
Proof.
  unfold update, ok, copy_assign, copy_construct; simpl.
  case_bool_decide as E; status_simpl; [|reflexivity].
  case_bool_decide as En; [rewrite En; reflexivity | apply cells_copy_state].
Qed.

Lemma update_move_state (s n : Status) :
  _state (update_move chk s n).1
  = if bool_decide (_state s = nullptr) then _state n else _state s.
Proof.
  unfold update_move, ok, move_assign, move_construct; simpl.
  case_bool_decide as E; status_simpl; reflexivity.
Qed.

(** *** The length cells stay within two bytes *)

Lemma wf_assemble_state (c : TStatusCode.type) (msg ctx : string) :
  wf_state g (assemble_state c msg ctx).
Proof.
  unfold wf_state, wf_cells, len1, len2; simpl.
  split; apply length_substring_le.
Qed.

Lemma wf_copy_state (p : state_ptr) :
  wf_state g p -> wf_state g (copy_state g p).
Proof. unfold wf_state; rewrite cells_copy_state; auto. Qed.

Lemma wf_update (s n : Status) :
  wf_state g (_state s) -> wf_state g (_state n) ->
  wf_state g (_state (update chk g s n).1)
  /\ wf_state g (_state (update_move chk s n).1).
Proof.
  intros Hs Hn; unfold wf_state at 1.
  rewrite update_state, update_move_state.
  case_bool_decide; auto.
Qed.

(** C6.  [s.update(n)], in both overloads: when [s] is ok, [s] becomes
    [n] (its code, message and context; the moving overload takes over the
    very state of [n]); when [s] holds a failure, [s] keeps its state
    whatever [n] is - the first error wins. *)
Theorem update_first_error_wins (s n : Status) :
  let after := (update chk g s n).1 in
  let after_move := (update_move chk s n).1 in
  if (ok chk s).1 then
    (code_of g (_state after) = code_of g (_state n)
     /\ message_of g (_state after) = message_of g (_state n)
     /\ context_of g (_state after) = context_of g (_state n))
    /\ _state after_move = _state n
  else
    _state after = _state s /\ _state after_move = _state s.
Proof.
  intros after after_move.
  pose proof (update_state s n) as Hc.
  pose proof (update_move_state s n) as Hm.
  fold after in Hc; fold after_move in Hm.
  unfold ok; simpl.
  case_bool_decide as E.
  - split; [apply observers_of_cells; exact Hc | exact Hm].
  - split; [|exact Hm].
    subst after; unfold update, ok; simpl.
    rewrite bool_decide_eq_false_2 by exact E.
    simpl; apply state_mark_checked.
Qed.

(** C7, as the code has it.  A default-constructed Status is ok.  The
    source of a move (constructor or assignment) is left pointing to the
    moved-from marker, which is not the null state: [ok()] is false on it
    and [code()] reads the marker's code cell.  It has been marked checked,
    so its destructor reports nothing, and the destructor frees nothing. *)
Theorem default_ok_and_moved_from (s this : Status) :
  (ok chk default_Status).1 = true
  /\ (move_assign chk this s).1.2 = (move_construct chk s).2
  /\ let moved := (move_construct chk s).2 in
     _state moved = moved_from_state
     /\ (ok chk moved).1 = false
     /\ (code chk g moved).1 = cell_code g
     /\ reported_unchecked (destroy chk moved) = false
     /\ deleted (destroy chk moved) = None.
Proof.
  split; [reflexivity|].
  split; [reflexivity|].
  unfold move_construct, destroy, mark_checked, must_check, ok, code, code_of.
  destruct chk; simpl; repeat split; reflexivity.
Qed.

(** C10.  [ignore_not_found(s)] is ok when the code of [s] is NOT_FOUND;
    otherwise it is a copy of [s]: same code, same message, same context.
    The argument keeps its state. *)
Theorem ignore_not_found_spec (s : Status) :
  let r := (ignore_not_found chk g s).1 in
  _state (ignore_not_found chk g s).2 = _state s
  /\ if bool_decide (code_of g (_state s) = NOT_FOUND)
     then _state r = nullptr /\ (ok chk r).1 = true
     else code_of g (_state r) = code_of g (_state s)
          /\ message_of g (_state r) = message_of g (_state s)
          /\ context_of g (_state r) = context_of g (_state s).
Proof.
  unfold ignore_not_found, is_not_found, code; simpl.
  rewrite !state_mark_checked.
  case_bool_decide as E; simpl.
  - rewrite !state_mark_checked; repeat split; reflexivity.
  - pose proof (state_copy_construct
                  (mark_checked chk (mark_checked chk s))) as [H1 H2].
    rewrite !state_mark_checked in H1, H2.
    split; [exact H2 | apply observers_of_cells; exact H1].
Qed.

(** C8.  Sending a Status through its wire form and building a Status from
    what arrives gives the same code and the same message; the context
    arrives unless the transport dropped it. *)
Theorem wire_round_trip (lossy : bool) (s : Status) :
  wf_state g (_state s) ->
  let back := from_wire (transport lossy (to_wire g s)) in
  code_of g (_state back) = code_of g (_state s)
  /\ message_of g (_state back) = message_of g (_state s)
  /\ context_of g (_state back)
     = if lossy then EmptyString else context_of g (_state s).
Proof.
  unfold wf_state, to_wire, code_of, message_of, context_of.
  destruct (cells g (_state s)) as [a|] eqn:Ea; intros Hwf.
  - destruct Hwf as [Hm Hc]; unfold len1, len2 in *.
    destruct lossy; simpl;
      rewrite ?truncate_empty, ?truncate_short by assumption;
      repeat split; reflexivity.
  - destruct lossy; simpl; repeat split; reflexivity.
Qed.

End WithBuild.

(** A moved-from Status does not answer [ok()] with true. *)
Lemma moved_from_is_not_ok :
  (ok true (move_construct true (NotFound "tablet 7")).2).1 = false.
Proof. reflexivity. Qed.

Lemma wire_round_trip_witness :
  let g := StateCells INTERNAL_ERROR EmptyString EmptyString in
  let s := Status_ctor3 IO_ERROR "read failed" "fs.cpp:10 read(fd)" in
  wf_state g (_state s)
  /\ (let back := from_wire (transport true (to_wire g s)) in
      code_of g (_state back) = code_of g (_state s)
      /\ message_of g (_state back) = message_of g (_state s)
      /\ context_of g (_state back) = EmptyString).
Proof.
  intros g s.
  assert (H : wf_state g (_state s)) by apply wf_assemble_state.
  split; [exact H | exact (wire_round_trip g true s H)].
Defined.

End StatusProps.

(** ** Properties of the query-id pattern *)
Module RegexProps.

Import Regex Spill QueryIdScan.

Lemma run_times_bracket ranges n b s k :
  run (times n (bracket ranges)) b s k
  = match take_class ranges n s with
    | Some rest => k (match n with O => b | S _ => false end) rest
    | None => false
    end.
Proof.
  revert b s; induction n as [|n IH]; intros b s; [reflexivity|].
  change (run (times (S n) (bracket ranges)) b s k)
    with (run (bracket ranges) b s
            (fun b' s' => run (times n (bracket ranges)) b' s' k)).
  destruct s as [|d s]; simpl; [reflexivity|].
  destruct (existsb (in_range d) ranges); simpl; [|reflexivity].
  specialize (IH false s); simpl in IH; rewrite IH.
  destruct (take_class ranges n s); [|reflexivity].
  destruct n; reflexivity.
Qed.

Lemma run_hyphen b s k :
  run hyphen b s k
  = match take_hyphen s with Some rest => k false rest | None => false end.
Proof.
  destruct s as [|d s]; simpl; [reflexivity|].
  case_bool_decide; reflexivity.
Qed.

Lemma run_cat r1 r2 b s k :
  run (cat r1 r2) b s k = run r1 b s (fun b' s' => run r2 b' s' k).
Proof. reflexivity. Qed.

Lemma run_begin s k : run assert_begin true s k = k true s.
Proof. reflexivity. Qed.

Lemma run_end b s :
  run assert_end b s (fun _ rest => bool_decide (rest = EmptyString))
  = bool_decide (s = EmptyString).
Proof. destruct s; reflexivity. Qed.

Ltac scan_step lem x :=
  rewrite run_cat, lem;
  destruct x as [?rest|] eqn:?; cbn [mbind option_bind];
  [cbv beta | symmetry; apply bool_decide_eq_false; discriminate].

(** The matcher run on the pattern is the scan, then end of input. *)
Lemma regex_match_scan (s : string) :
  regex_match s query_id_pattern
  = bool_decide (scan_query_id s = Some EmptyString).
Proof.
  unfold regex_match, query_id_pattern, scan_query_id, hex_class.
  rewrite run_cat, run_begin.
  scan_step run_times_bracket (take_class hex_ranges 8 s).
  scan_step run_hyphen (take_hyphen rest).
  scan_step run_times_bracket (take_class hex_ranges 4 rest0).
  scan_step run_hyphen (take_hyphen rest1).
  scan_step run_times_bracket (take_class hex_ranges 4 rest2).
  scan_step run_hyphen (take_hyphen rest3).
  scan_step run_times_bracket (take_class hex_ranges 4 rest4).
  scan_step run_hyphen (take_hyphen rest5).
  rewrite run_cat, run_times_bracket.
  destruct (take_class hex_ranges 12 rest6) as [rest7|];
    [|symmetry; apply bool_decide_eq_false; discriminate].
  rewrite run_end.
  apply bool_decide_ext; split; congruence.
Qed.

(** The bracket class [0-9a-f] holds the sixteen lowercase digits. *)
Lemma hex_class_digit (c : ascii) :
  existsb (in_range c) hex_ranges = true <-> lower_hex_digit c.
Proof.
  assert (E : existsb (in_range c) hex_ranges
              = existsb (Ascii.eqb c) (list_ascii_of_string "0123456789abcdef")).
  { destruct c as [[] [] [] [] [] [] [] []]; reflexivity. }
  rewrite E, existsb_exists; unfold lower_hex_digit; split.
  - intros (d & Hd & Heq); apply Ascii.eqb_eq in Heq; subst; exact Hd.
  - intros H; exists c; split; [exact H | apply Ascii.eqb_refl].
Qed.

Lemma append_empty_r (s : string) : s +:+ EmptyString = s.
Proof.
  induction s as [|c s IH]; [reflexivity|].
  change (String c s +:+ EmptyString) with (String c (s +:+ EmptyString)).
  f_equal; exact IH.
Qed.

Lemma take_class_inv n s r :
  take_class hex_ranges n s = Some r ->
  exists x, s = x +:+ r /\ hex_group n x.
Proof.
  revert s; induction n as [|n IH]; intros s H; cbn [take_class] in H.
  - exists EmptyString; inversion H; subst; repeat split; constructor.
  - destruct s as [|d s]; [discriminate H|].
    destruct (existsb (in_range d) hex_ranges) eqn:Hd; [|discriminate H].
    destruct (IH s H) as (x & -> & Hlen & Hall).
    exists (String d x); repeat split; simpl.
    + f_equal; exact Hlen.
    + constructor; [apply hex_class_digit; exact Hd | exact Hall].
Qed.

Lemma take_class_app n x r :
  hex_group n x -> take_class hex_ranges n (x +:+ r) = Some r.
Proof.
  revert x; induction n as [|n IH]; intros x [Hlen Hall].
  - destruct x; [reflexivity | discriminate].
  - destruct x as [|d x]; [discriminate|].
    cbn [take_class String.length list_ascii_of_string] in *.
    change (String d x +:+ r) with (String d (x +:+ r)).
    inversion Hall as [|? ? Hd Hall']; subst.
    apply hex_class_digit in Hd; rewrite Hd.
    apply IH; split; [lia | exact Hall'].
Qed.

Lemma take_hyphen_inv s r : take_hyphen s = Some r -> s = "-" +:+ r.
Proof.
  destruct s as [|d s]; simpl; [discriminate|].
  case_bool_decide as E; [|discriminate].
  intros H; inversion H; subst; reflexivity.
Qed.

Lemma take_hyphen_app r : take_hyphen ("-" +:+ r) = Some r.
Proof. reflexivity. Qed.

Lemma scan_query_id_spec (s : string) :
  scan_query_id s = Some EmptyString <-> is_query_id_name s.
Proof.
  unfold scan_query_id, is_query_id_name; split.
  - intros H.
    destruct (take_class hex_ranges 8 s) as [s1|] eqn:E1; [|discriminate H].
    cbn [mbind option_bind] in H.
    destruct (take_hyphen s1) as [s1'|] eqn:H1; [|discriminate H].
    cbn [mbind option_bind] in H.
    destruct (take_class hex_ranges 4 s1') as [s2|] eqn:E2; [|discriminate H].
    cbn [mbind option_bind] in H.
    destruct (take_hyphen s2) as [s2'|] eqn:H2; [|discriminate H].
    cbn [mbind option_bind] in H.
    destruct (take_class hex_ranges 4 s2') as [s3|] eqn:E3; [|discriminate H].
    cbn [mbind option_bind] in H.
    destruct (take_hyphen s3) as [s3'|] eqn:H3; [|discriminate H].
    cbn [mbind option_bind] in H.
    destruct (take_class hex_ranges 4 s3') as [s4|] eqn:E4; [|discriminate H].
    cbn [mbind option_bind] in H.
    destruct (take_hyphen s4) as [s4'|] eqn:H4; [|discriminate H].
    cbn [mbind option_bind] in H.
    apply take_class_inv in E1, E2, E3, E4, H.
    apply take_hyphen_inv in H1, H2, H3, H4.
    destruct E1 as (a & -> & Ha), E2 as (b & -> & Hb), E3 as (c & -> & Hc),
             E4 as (d & -> & Hd), H as (e & -> & He).
    subst; exists a, b, c, d, e.
    rewrite append_empty_r.
    split; [reflexivity | tauto].
  - intros (a & b & c & d & e & -> & Ha & Hb & Hc & Hd & He).
    rewrite (take_class_app 8 a _ Ha); cbn [mbind option_bind].
    rewrite take_hyphen_app; cbn [mbind option_bind].
    rewrite (take_class_app 4 b _ Hb); cbn [mbind option_bind].
    rewrite take_hyphen_app; cbn [mbind option_bind].
    rewrite (take_class_app 4 c _ Hc); cbn [mbind option_bind].
    rewrite take_hyphen_app; cbn [mbind option_bind].
    rewrite (take_class_app 4 d _ Hd); cbn [mbind option_bind].
    rewrite take_hyphen_app; cbn [mbind option_bind].
    rewrite <- (append_empty_r e) at 1.
    apply take_class_app; exact He.
Qed.

(** The pattern of line 60 accepts exactly the names of the 8-4-4-4-12
    form. *)
Lemma regex_match_query_id (s : string) :
  regex_match s query_id_pattern = true <-> is_query_id_name s.
Proof.
  rewrite regex_match_scan, bool_decide_eq_true; apply scan_query_id_spec.
Qed.

End RegexProps.

(** ** Properties of DirManager::init *)
Module SpillProps.

Import TStatusCode StatusModel Regex Spill RegexProps.

Example uuid_name_matches :
  regex_match "0a1b2c3d-4e5f-6789-abcd-ef0123456789" query_id_pattern = true.
Proof. vm_compute; reflexivity. Qed.

Example upper_case_name_rejected :
  regex_match "0A1B2C3D-4E5F-6789-ABCD-EF0123456789" query_id_pattern = false.
Proof. vm_compute; reflexivity. Qed.

Example longer_name_rejected :
  regex_match "0a1b2c3d-4e5f-6789-abcd-ef0123456789.bak" query_id_pattern = false.
Proof. vm_compute; reflexivity. Qed.

Lemma append_inj (p a b : string) : p +:+ a = p +:+ b -> a = b.
Proof.
  induction p as [|c p IH]; intros E; [exact E|].
  change (String c (p +:+ a) = String c (p +:+ b)) in E.
  apply IH; congruence.
Qed.

Lemma sub_path_inj p a b : sub_path p a = sub_path p b -> a = b.
Proof.
  unfold sub_path; intros E; apply append_inj in E.
  change (String "/" a = String "/" b) in E; congruence.
Qed.

Lemma RETURN_IF_ERROR_passed chk g st file line stmt :
  (ok chk st).1 = true -> RETURN_IF_ERROR chk g st file line stmt = None.
Proof. unfold RETURN_IF_ERROR; intros ->; reflexivity. Qed.

Lemma RETURN_IF_ERROR_failed chk g st file line stmt :
  (ok chk st).1 = false ->
  RETURN_IF_ERROR chk g st file line stmt
  = Some (clone_and_append_context g (ok chk st).2 file line stmt).
Proof. unfold RETURN_IF_ERROR; intros ->; reflexivity. Qed.

Section Init.

Context {F : Type} `{FileSystem F}.
Variable chk : bool.
Variable g : state_cells.
Variable parse_conf_store_paths : string -> Status * list StorePath.
Variable get_store_paths : list string.
Variable check_datapath_rw : string -> bool.
Variable ignore_broken_disk : bool.
Variable iterate_dir_LINE : Z.
Variable iterate_dir_stmt : string.

(** One callback run: a delete call exactly for a matching name. *)
Lemma clean_residual_log p n (w : world F) :
  (clean_residual p n w).1 = true
  /\ manager (clean_residual p n w).2 = manager w
  /\ deleted_dirs (clean_residual p n w).2
     = deleted_dirs w ++ (if regex_match n query_id_pattern
                          then [sub_path p n] else []).
Proof.
  unfold clean_residual.
  destruct (regex_match n query_id_pattern).
  - destruct (delete_dir_recursive (sub_path p n) (disk w)); simpl; auto.
  - simpl; rewrite app_nil_r; auto.
Qed.

Lemma visit_clean_residual p names (w : world F) :
  manager (visit (clean_residual p) names w) = manager w
  /\ deleted_dirs (visit (clean_residual p) names w)
     = deleted_dirs w ++ map (sub_path p) (matching names).
Proof.
  revert w; induction names as [|n names IH]; intros w; simpl.
  - rewrite app_nil_r; auto.
  - pose proof (clean_residual_log p n w) as (Hgo & Hm & Hd).
    destruct (clean_residual p n w) as [go w1]; simpl in *; subst go.
    destruct (IH w1) as [IHm IHd]; rewrite IHm, IHd, Hm, Hd.
    split; [reflexivity|].
    destruct (regex_match n query_id_pattern); simpl;
      rewrite <- ?app_assoc; reflexivity.
Qed.

Lemma in_matching p names n :
  n ∈ names ->
  (sub_path p n ∈ map (sub_path p) (matching names) <-> is_query_id_name n).
Proof.
  intros Hn; rewrite <- regex_match_query_id, !list_elem_of_In, in_map_iff.
  unfold matching; split.
  - intros (n' & E & Hin); apply sub_path_inj in E; subst n'.
    apply filter_In in Hin as [_ Hin]; exact Hin.
  - intros Hm; exists n; split; [reflexivity|].
    apply filter_In; split; [apply list_elem_of_In; exact Hn | exact Hm].
Qed.

Lemma matching_sound p names d :
  d ∈ map (sub_path p) (matching names) ->
  exists n, n ∈ names /\ d = sub_path p n /\ is_query_id_name n.
Proof.
  rewrite list_elem_of_In, in_map_iff; intros (n & <- & Hin).
  apply filter_In in Hin as [Hin Hm].
  exists n; rewrite list_elem_of_In, <- regex_match_query_id; auto.
Qed.

(** One directory of the loop at lines 62-80: the delete calls it makes
    are those for the matching names among the entries it is shown, and it
    registers the directory when it does not return. *)
Lemma prepare_dir_log p (w : world F) :
  let shown :=
    match CreateSharedFromString (path p) (disk w) with
    | Some _ => []
    | None =>
        let '(st, d) := create_dir_if_missing (path p) (disk w) in
        if (ok chk st).1 then (dir_entries (path p) d).2 else []
    end in
  deleted_dirs (prepare_dir chk g iterate_dir_LINE iterate_dir_stmt p w).2
  = deleted_dirs w ++ map (sub_path (path p)) (matching shown)
  /\ _dirs (manager (prepare_dir chk g iterate_dir_LINE iterate_dir_stmt p w).2)
     = _dirs (manager w)
       ++ (match (prepare_dir chk g iterate_dir_LINE iterate_dir_stmt p w).1 with Some _ => [] | None => [path p] end).
Proof.
  unfold prepare_dir.
  destruct (CreateSharedFromString (path p) (disk w)) as [e|].
  { simpl; rewrite !app_nil_r; split; reflexivity. }
  destruct (create_dir_if_missing (path p) (disk w)) as [st d].
  cbv beta iota zeta.
  destruct (ok chk st).1 eqn:Eok.
  2:{ rewrite (RETURN_IF_ERROR_failed _ _ _ _ _ _ Eok); simpl.
      rewrite !app_nil_r; split; reflexivity. }
  rewrite (RETURN_IF_ERROR_passed _ _ _ _ _ _ Eok).
  unfold iterate_dir; cbn [disk].
  destruct (dir_entries (path p) d) as [st' names]; cbn [snd].
  pose proof (visit_clean_residual (path p) names
                (MkWorld d (manager w) (deleted_dirs w))) as [Hm Hd].
  cbn [manager deleted_dirs] in Hm, Hd.
  destruct (RETURN_IF_ERROR chk g st' FILE _ _); cbn [fst snd manager deleted_dirs _dirs];
    rewrite ?Hm, ?Hd, ?app_nil_r; split; reflexivity.
Qed.

Lemma prepare_dirs_sound paths (w : world F) :
  exists new,
    deleted_dirs (prepare_dirs chk g iterate_dir_LINE iterate_dir_stmt paths w).2 = deleted_dirs w ++ new
    /\ forall d, d ∈ new ->
        exists p n, p ∈ paths /\ d = sub_path (path p) n /\ is_query_id_name n.
Proof.
  revert w; induction paths as [|p paths IH]; intros w; simpl.
  - exists []; rewrite app_nil_r; split; [reflexivity|].
    intros d Hd; inversion Hd.
  - pose proof (prepare_dir_log p w) as [Hd _]; cbv zeta in Hd.
    set (shown := match CreateSharedFromString (path p) (disk w) with
                  | Some _ => [] | None => _ end) in Hd.
    assert (Hnew : forall d, d ∈ map (sub_path (path p)) (matching shown) ->
              exists q n, q ∈ p :: paths /\ d = sub_path (path q) n
                          /\ is_query_id_name n).
    { intros d Hin; apply matching_sound in Hin as (n & _ & -> & Hn).
      exists p, n; split; [left | auto]. }
    destruct (prepare_dir chk g iterate_dir_LINE iterate_dir_stmt p w) as [[e|] w1]; simpl in *.
    + eexists; split; [exact Hd | exact Hnew].
    + destruct (IH w1) as (new & E & Hall).
      exists (map (sub_path (path p)) (matching shown) ++ new).
      rewrite E, Hd, app_assoc; split; [reflexivity|].
      intros d Hin; apply elem_of_app in Hin as [Hin|Hin]; [auto|].
      destruct (Hall d Hin) as (q & n & Hq & -> & Hn).
      exists q, n; split; [right; exact Hq | auto].
Qed.

(** The loop over a list in two parts: the second part starts where the
    first ended, unless the first returned. *)
Lemma prepare_dirs_app pre post (w : world F) :
  prepare_dirs chk g iterate_dir_LINE iterate_dir_stmt (pre ++ post) w
  = match prepare_dirs chk g iterate_dir_LINE iterate_dir_stmt pre w with
    | (Some e, w1) => (Some e, w1)
    | (None, w1) =>
        prepare_dirs chk g iterate_dir_LINE iterate_dir_stmt post w1
    end.
Proof.
  revert w; induction pre as [|p pre IH]; intros w; simpl; [reflexivity|].
  destruct (prepare_dir chk g iterate_dir_LINE iterate_dir_stmt p w)
    as [[e|] w1]; [reflexivity | apply IH].
Qed.

Lemma check_paths_kept paths kept :
  check_paths get_store_paths check_datapath_rw ignore_broken_disk paths
  = inr kept ->
  forall p, p ∈ kept ->
    p ∈ paths /\ (path p ∉ get_store_paths)
    /\ check_datapath_rw (path p) = true.
Proof.
  revert kept; induction paths as [|p paths IH]; intros kept; simpl.
  - intros [= <-] q Hq; inversion Hq.
  - case_bool_decide as Hin; [discriminate|].
    destruct (check_datapath_rw (path p)) eqn:Hrw; simpl.
    + destruct (check_paths _ _ _ paths) as [e|k]; [discriminate|].
      intros [= <-] q Hq; apply elem_of_cons in Hq as [->|Hq].
      * split; [left | auto].
      * destruct (IH k eq_refl q Hq) as (? & ? & ?).
        split; [right; assumption | auto].
    + destruct ignore_broken_disk; [|discriminate].
      intros E q Hq; destruct (IH kept E q Hq) as (? & ? & ?).
      split; [right; assumption | auto].
Qed.

End Init.

Import SpillDemo.

Example demo_init_result :
  _state demo_init.1 = nullptr
  /\ deleted_dirs demo_init.2 = ["/data/spill/" +:+ residue]
  /\ disk demo_init.2
     = [ ("/data/spill", ["lost+found"; look_alike]);
         ("/data/spill/lost+found", []) ]
  /\ _dirs (manager demo_init.2) = ["/data/spill"].
Proof. vm_compute; repeat split; reflexivity. Qed.

End SpillProps.

(** ** Properties of HashJoinBuildOperator *)
Module HashJoinProps.

Import TStatusCode StatusModel HashJoinBuild StatusProps.

Local Open Scope Z_scope.

(** What [RETURN_IF_ERROR] hands back keeps the kind of the failure. *)
Lemma clone_and_append_context_failed chk g st file line stmt :
  (ok chk st).1 = false ->
  let e := clone_and_append_context g (ok chk st).2 file line stmt in
  (ok chk e).1 = false
  /\ code_of g (_state e) = code_of g (_state st)
  /\ message_of g (_state e) = message_of g (_state st).
Proof.
  unfold ok, clone_and_append_context, code_of, message_of; simpl.
  rewrite state_mark_checked.
  intros Hok; apply bool_decide_eq_false in Hok.
  destruct (_state st) as [| |a]; simpl; [congruence | |];
    repeat split; reflexivity.
Qed.

Section Operator.

Context {C : Type} `{JoinerCore C}.
Variable chk : bool.
Variable g : state_cells.
Variable NDEBUG : bool.
Variable ONCE_DETECTORS : bool.
Variable Operator_prepare : Status.

Local Arguments ok : simpl never.
Local Arguments RETURN_IF_ERROR : simpl never.
Local Arguments clone_and_append_context : simpl never.
Local Arguments copy_construct : simpl never.
Local Arguments Cancelled : simpl never.
Local Arguments add_partial_filters : simpl never.
Local Arguments total_bf_bytes : simpl never.

(** Case analysis on the innermost scrutinee. *)
Ltac innermost x :=
  match x with
  | context [match ?y with _ => _ end] => innermost y
  | _ => destruct x eqn:?
  end.

Ltac branch :=
  match goal with
  | |- context [match ?x with _ => _ end] => innermost x
  end; cbn in *.

Ltac run_body :=
  cbv [mbind M_bind mret M_ret RETURN_IF_ERROR_ DeferOp DCHECK CHECK
       publish_merged on_core submit_partial_filters RETURN_IF_ERROR
       function function_with]; cbn.

(** C4.  [prepare] always returns.  When [Operator::prepare] fails, it
    returns that failure and has touched neither the merger nor the
    Joiner.  Otherwise it has called [incr_builder] once and [ref] twice -
    the expected-builder count is up by one and the reference count by
    two - before [prepare_builder] runs, and it returns a failure exactly
    when [prepare_builder] does: the counts move together or not at all. *)
Theorem prepare_registers_lane (s : state (C := C)) :
  let r := function (prepare chk g Operator_prepare) s in
  let prep := prepare_builder (core (join_builder s.2)) in
  r.2.1 = s.1
  /\ if (ok chk Operator_prepare).1 then
       expected_builders (partial_rf_merger r.2.2)
       = expected_builders (partial_rf_merger s.2) + 1
       /\ refs (join_builder r.2.2) = refs (join_builder s.2) + 2
       /\ calls r.2.2
          = calls s.2 ++ [call_Operator_prepare; call_incr_builder;
                          call_ref; call_ref; call_prepare_builder]
       /\ exists st, r.1 = Returned st /\ (ok chk st).1 = (ok chk prep.1).1
     else
       partial_rf_merger r.2.2 = partial_rf_merger s.2
       /\ join_builder r.2.2 = join_builder s.2
       /\ calls r.2.2 = calls s.2 ++ [call_Operator_prepare]
       /\ exists st, r.1 = Returned st /\ (ok chk st).1 = false.
Proof.
  destruct s as [op w]; unfold prepare, function, function_with.
  cbv [mbind M_bind mret M_ret RETURN_IF_ERROR_]; cbn.
  unfold RETURN_IF_ERROR.
  destruct (ok chk Operator_prepare).1 eqn:E0; cbn.
  - unfold on_core; cbn.
    destruct (prepare_builder (core (join_builder w))) as [st k]; cbn.
    split; [destruct (ok chk st).1; reflexivity|].
    destruct (ok chk st).1 eqn:E1; cbn;
      (split; [reflexivity|]); (split; [lia|]);
      (split; [rewrite <- !app_assoc; reflexivity|]);
      eexists; (split; [reflexivity|]).
    + reflexivity.
    + apply clone_and_append_context_failed; exact E1.
  - repeat split; try reflexivity.
    eexists; split; [reflexivity|].
    apply clone_and_append_context_failed; exact E0.
Qed.

(** C5, as the code has it.  [pull_chunk] returns nothing: it ends in the
    fatal [CHECK(false)] of line 64, with the message "pull_chunk not
    supported in HashJoinBuildOperator", so no chunk, empty or valid, comes
    back; the state is untouched. *)
Theorem pull_chunk_is_fatal (s : state (C := C)) :
  function_or pull_chunk s
  = (Crashed "Check failed: pull_chunk not supported in HashJoinBuildOperator", s)
  /\ match (function_or pull_chunk s).1 with
     | Returned _ => False
     | Crashed _ => True
     end.
Proof. split; [reflexivity | exact I]. Qed.

Lemma is_cancelled_Cancelled msg :
  (is_cancelled chk g (Cancelled msg)).1 = true.
Proof. destruct chk; reflexivity. Qed.

(** The flags [set_finishing] leaves in the operator when it returns. *)
Lemma set_finishing_flags (s : state (C := C)) st s' :
  function (set_finishing chk g NDEBUG ONCE_DETECTORS) s = (Returned st, s') ->
  s'.1 = set_is_finished true
           (if ONCE_DETECTORS then set_set_finishing_once true s.1 else s.1)
  /\ cancelled s'.2 = cancelled s.2.
Proof.
  destruct s as [op w]; unfold set_finishing, set_finishing_body, ONCE_DETECT.
  run_body.
  repeat branch; intros [= <- <-]; split; cbn; congruence.
Qed.

(** Nothing in [set_finishing] reads [_is_finished]. *)
Lemma set_finishing_ignores_is_finished b (op : HashJoinBuildOperator) (w : world C) :
  function (set_finishing chk g NDEBUG ONCE_DETECTORS) (set_is_finished b op, w)
  = match function (set_finishing chk g NDEBUG ONCE_DETECTORS) (op, w) with
    | (Returned st, s') => (Returned st, s')
    | (Crashed msg, s') => (Crashed msg, (set_is_finished b s'.1, s'.2))
    end.
Proof.
  unfold set_finishing, set_finishing_body, ONCE_DETECT.
  run_body.
  repeat branch; reflexivity.
Qed.

(** With the query cancelled, the body returns at once. *)
Lemma set_finishing_cancelled (s : state (C := C)) :
  ONCE_DETECTORS = false -> cancelled s.2 = true ->
  function (set_finishing chk g NDEBUG ONCE_DETECTORS) s
  = (Returned (Cancelled "runtime state is cancelled"),
     (set_is_finished true s.1, s.2)).
Proof.
  destruct s as [op w]; unfold set_finishing, set_finishing_body, ONCE_DETECT.
  cbn [fst snd]; intros -> Hc.
  run_body; rewrite Hc; reflexivity.
Qed.

(** A call that gets past the cancellation check starts with [build_ht]. *)
Lemma set_finishing_builds (s : state (C := C)) :
  ONCE_DETECTORS = false -> cancelled s.2 = false ->
  exists rest,
    calls (function (set_finishing chk g NDEBUG ONCE_DETECTORS) s).2.2
    = calls s.2 ++ call_build_ht :: rest.
Proof.
  destruct s as [op w]; unfold set_finishing, set_finishing_body, ONCE_DETECT.
  cbn [fst snd]; intros -> Hc.
  run_body; rewrite Hc; cbn.
  repeat branch; rewrite <- ?app_assoc; cbn; eexists; reflexivity.
Qed.

(** C2.  Whenever [set_finishing] returns - with success, with the
    cancellation error or with the failure of a step - [_is_finished] is
    true.  With the query cancelled at entry it returns
    [Cancelled("runtime state is cancelled")] and has called no
    collaborator: everything but the operator's own flags is as before.
    It fails to return only where a debug check stops the process: the
    detector of a second entry, or the DCHECK of line 93. *)
Theorem set_finishing_marks_finished (s : state (C := C)) :
  match function (set_finishing chk g NDEBUG ONCE_DETECTORS) s with
  | (Returned st, s') =>
      _is_finished s'.1 = true
      /\ (if cancelled s.2 then
            st = Cancelled "runtime state is cancelled"
            /\ (is_cancelled chk g st).1 = true
            /\ s'.2 = s.2
          else True)
  | (Crashed _, s') =>
      (ONCE_DETECTORS = true /\ _set_finishing_once s.1 = true /\ s' = s)
      \/ (NDEBUG = false /\ cancelled s.2 = false
          /\ _distribution_mode s.1 = BROADCAST /\ _driver_sequence s.1 <> 0)
  end.
Proof.
  destruct s as [op w]; unfold set_finishing, set_finishing_body, ONCE_DETECT.
  run_body.
  repeat branch.
  all: try (split; [reflexivity|]); try exact I.
  all: try (repeat split; try reflexivity; destruct chk; reflexivity).
  all: try (left; repeat split; try reflexivity;
            apply negb_false_iff; assumption).
  all: right; repeat split; try reflexivity; try assumption;
    match goal with
    | E : negb _ || _ = false |- _ =>
        apply orb_false_iff in E as [E1 E2];
        apply negb_false_iff, bool_decide_eq_true in E1;
        apply bool_decide_eq_false in E2; assumption
    end.
Qed.

(** C1, as the code has it.  [set_finishing] has no guard of its own
    against a second call; [ONCE_DETECT] only detects one.  After a first
    call that returned, [_is_finished] is true, and a second call on the
    same operator either stops at the detector's fatal check, before any
    work and with nothing changed (builds with detectors), or runs the
    whole function again, as a first call would in the state the first
    call left: unless the query is cancelled it calls [build_ht] again. *)
Theorem set_finishing_second_call (s0 : state (C := C)) st1 s1 :
  function (set_finishing chk g NDEBUG ONCE_DETECTORS) s0 = (Returned st1, s1) ->
  let second := function (set_finishing chk g NDEBUG ONCE_DETECTORS) s1 in
  _is_finished s1.1 = true
  /\ if ONCE_DETECTORS then
       second
       = (Crashed "Check failed: _set_finishing_once entered more than once", s1)
     else
       second.1 = (function (set_finishing chk g NDEBUG ONCE_DETECTORS) (s0.1, s1.2)).1
       /\ second.2.2
          = (function (set_finishing chk g NDEBUG ONCE_DETECTORS) (s0.1, s1.2)).2.2
       /\ if cancelled s1.2 then second.2.2 = s1.2
          else exists rest, calls second.2.2 = calls s1.2 ++ call_build_ht :: rest.
Proof.
  intros Hfirst second.
  destruct (set_finishing_flags _ _ _ Hfirst) as [Hop Hc].
  destruct s0 as [op0 w0], s1 as [op1 w1]; cbn [fst snd] in *; subst op1.
  split; [reflexivity|].
  pose proof (set_finishing_ignores_is_finished true op0 w1) as Hign.
  pose proof (set_finishing_builds (op0, w1)) as Hb.
  pose proof (set_finishing_cancelled (op0, w1)) as Hcan.
  subst second; clear Hfirst; revert Hign Hb Hcan.
  destruct ONCE_DETECTORS; intros Hign Hb Hcan.
  - unfold set_finishing, ONCE_DETECT; reflexivity.
  - rewrite Hign; cbn [fst snd] in *.
    destruct (cancelled w1).
    + rewrite (Hcan eq_refl eq_refl); repeat split; reflexivity.
    + specialize (Hb eq_refl eq_refl).
      destruct (function (set_finishing chk g NDEBUG false) (op0, w1))
        as [[st|msg] s2]; cbn [fst snd] in *;
        (split; [reflexivity|]); (split; [reflexivity | exact Hb]).
Qed.


End Operator.

Import HashJoinDemo.

(** A second [set_finishing] on the lane of [fed_lane]: in a release build
    it builds and submits again and returns another Status than the first
    call; in a checking build it does not return. *)
Lemma set_finishing_twice_is_not_a_no_op :
  first_call.1 = Returned OK_
  /\ second_call.1
     = Returned (InternalError "partial runtime filters added after the merge")
  /\ calls second_call.2.2
     = calls first_call.2.2
       ++ [call_build_ht; call_create_runtime_filters;
           call_retain_string_key_columns; call_add_partial_filters]
  /\ checking_first_call.1 = Returned OK_
  /\ checking_second_call.1
     = Crashed "Check failed: _set_finishing_once entered more than once".
Proof. vm_compute; repeat split; reflexivity. Qed.

Lemma set_finishing_second_call_witness :
  function (set_finishing false marker true false) fed_lane
  = (Returned OK_, first_call.2)
  /\ _is_finished first_call.2.1 = true.
Proof.
  assert (Hfirst : function (set_finishing false marker true false) fed_lane
                   = (Returned OK_, first_call.2)) by (vm_compute; reflexivity).
  split; [exact Hfirst|].
  exact (proj1 (set_finishing_second_call false marker true false
                  fed_lane OK_ first_call.2 Hfirst)).
Defined.

(** [pull_chunk] on the lane of [fed_lane] does not return. *)
Lemma pull_chunk_does_not_return :
  (function_or pull_chunk fed_lane).1
  = Crashed "Check failed: pull_chunk not supported in HashJoinBuildOperator"
  /\ ~ exists r, (function_or pull_chunk fed_lane).1 = Returned r.
Proof. split; [reflexivity | intros [r Hr]; discriminate Hr]. Qed.


(** A cancelled lane: the cancellation error, the flag, and no call. *)
Example cancelled_lane :
  function (set_finishing true marker false true) (cancel fed_lane)
  = (Returned (Cancelled "runtime state is cancelled"),
     (MkOperator 7 0 BROADCAST true true 0, (cancel fed_lane).2)).
Proof. vm_compute; reflexivity. Qed.

(** A lane whose [build_ht] fails is finished all the same. *)
Example failed_build_is_finished :
  let s : state (C := table) :=
    (lane_operator PARTITIONED 0,
     MkWorld false (MkJoiner 2 BUILD false (MkTable [1] false [] [] true))
             (MkMerger 1 [] false [] []) [[]] ∅ [] 0 []) in
  let r := function (set_finishing true marker false true) s in
  (exists st, r.1 = Returned st /\ code_of marker (_state st) = INTERNAL_ERROR)
  /\ _is_finished r.2.1 = true
  /\ calls r.2.2 = [call_build_ht].
Proof.
  vm_compute; repeat split; try reflexivity.
  eexists; split; reflexivity.
Qed.

(** Two lanes: only the second to finish publishes, and the collector
    holds the filters of both. *)
Example two_lanes_publish_once :
  lane0_finishing.1 = Returned OK_
  /\ hub lane0_finishing.2.2 = ∅
  /\ published lane0_finishing.2.2 = []
  /\ lane1_finishing.1 = Returned OK_
  /\ collected_in_filters <$> hub lane1_finishing.2.2 !! 7 = Some [1; 2; 3; 4]
  /\ length (published lane1_finishing.2.2) = 1%nat
  /\ expected_builders (partial_rf_merger lane1_finishing.2.2) = 2
  /\ refs (join_builder lane1_finishing.2.2) = 4.
Proof. vm_compute; repeat split; reflexivity. Qed.

End HashJoinProps.

(** ** More properties of Status *)
Module StatusMoreProps.

Import TStatusCode StatusModel StatusMore StatusProps.

Section WithBuild.

Variable chk : bool.
Variable g : state_cells.

(** X1.  A copy carries the code, message and context of its source in an
    array of its own: it is ok exactly when the source is, it never points
    to the moved-from marker - not even when the source does - so its
    destructor frees what it holds, and the source keeps its state. *)
Theorem copy_owns_its_state (s : Status) :
  let c := (copy_construct chk g s).1 in
  code_of g (_state c) = code_of g (_state s)
  /\ message_of g (_state c) = message_of g (_state s)
  /\ context_of g (_state c) = context_of g (_state s)
  /\ (ok chk c).1 = (ok chk s).1
  /\ is_moved_from (_state c) = false
  /\ deleted (destroy chk c) = Some (_state c)
  /\ _state (copy_construct chk g s).2 = _state s.
Proof.
  intros c.
  destruct (state_copy_construct chk g s) as [Hc Hs]; fold c in Hc.
  destruct (observers_of_cells g _ _ Hc) as (H1 & H2 & H3).
  assert (Hm : is_moved_from (_state c) = false).
  { subst c; unfold copy_construct; simpl; rewrite state_must_check; simpl.
    case_bool_decide; [reflexivity|].
    unfold copy_state; destruct (_state s); reflexivity. }
  repeat split; try assumption.
  - unfold ok; simpl.
    apply bool_decide_ext.
    subst c; unfold copy_construct; simpl; rewrite state_must_check; simpl.
    case_bool_decide as E; [tauto|].
    unfold copy_state; destruct (_state s); simpl; split; congruence.
  - unfold destroy; simpl; rewrite Hm; reflexivity.
Qed.

(** X2.  A move hands the state over as it is and leaves the marker in
    the source; a second move from the same source hands over the marker:
    its target is not ok - whatever the first source held, success
    included - and its destructor frees nothing. *)
Theorem move_twice_hands_over_the_marker (s : Status) :
  let first := move_construct chk s in
  let second := move_construct chk first.2 in
  _state first.1 = _state s
  /\ _state second.1 = moved_from_state
  /\ (ok chk second.1).1 = false
  /\ deleted (destroy chk second.1) = None
  /\ _state second.2 = moved_from_state.
Proof.
  unfold move_construct, destroy, ok; simpl.
  rewrite !state_must_check, !state_mark_checked; simpl.
  repeat split; reflexivity.
Qed.

Lemma fresh_unchecked (s : Status) :
  fresh chk g s -> reported_unchecked (destroy chk s) = chk.
Proof.
  intros []; unfold destroy, copy_construct, move_construct, copy_assign,
    move_assign, copy_construct, move_construct, must_check, mark_checked;
    destruct chk; reflexivity.
Qed.

Lemma inspected_checked (s s' : Status) :
  inspected chk g s s' ->
  _state s' = _state s /\ reported_unchecked (destroy chk s') = false.
Proof.
  intros []; unfold destroy, ok, code, is_cancelled, is_not_found,
    is_not_supported, is_end_of_file, is_ok_or_eof, permit_unchecked_error,
    ok, code, mark_checked;
    destruct chk; simpl; try (split; reflexivity);
    case_bool_decide; simpl; split; reflexivity.
Qed.

(** X3.  What the destructor reports.  With STARROCKS_ASSERT_STATUS_CHECKED
    a Status fresh from a constructor, a copy, a move or an assignment is
    reported when it dies uninspected - a default-constructed OK as well -
    and one call of [ok], [code], an [is_...] predicate or
    [permit_unchecked_error] is enough to silence the report, without
    changing the state.  Without the macro nothing is ever reported. *)
Theorem destructor_reports_the_uninspected (s s' : Status) :
  (fresh chk g s -> reported_unchecked (destroy chk s) = chk)
  /\ (inspected chk g s s' ->
      _state s' = _state s /\ reported_unchecked (destroy chk s') = false)
  /\ (chk = false -> reported_unchecked (destroy chk s) = false).
Proof.
  split; [apply fresh_unchecked|]; split; [apply inspected_checked|].
  intros ->; reflexivity.
Qed.


Lemma update_all_failed (s : Status) (sts : list Status) :
  _state s <> nullptr ->
  cells g (_state (update_all chk g s sts)) = cells g (_state s).
Proof.
  revert s; induction sts as [|n sts IH]; intros s Hs; [reflexivity|].
  unfold update_all in *; simpl.
  rewrite IH.
  - rewrite update_state, bool_decide_eq_false_2 by exact Hs; reflexivity.
  - intros E.
    pose proof (update_state chk g s n) as Hu.
    rewrite bool_decide_eq_false_2, E in Hu by exact Hs.
    simpl in Hu; destruct (_state s); [congruence | discriminate | discriminate].
Qed.

(** X5.  [update] over a sequence keeps the first failure: folding the
    results of several steps into a Status that starts ok leaves it with
    the code, message and context of the first step that failed, and ok
    when none did; a Status that already holds a failure keeps it. *)
Theorem update_all_first_failure (s : Status) (sts : list Status) :
  cells g (_state (update_all chk g s sts))
  = match first_failure (s :: sts) with
    | Some st => cells g (_state st)
    | None => None
    end.
Proof.
  unfold first_failure; revert s; induction sts as [|n sts IH]; intros s.
  - unfold update_all; simpl.
    rewrite filter_cons; destruct (decide (_state s <> nullptr)) as [Hs|Hs];
      simpl; [reflexivity|].
    apply dec_stable in Hs; rewrite Hs; reflexivity.
  - rewrite filter_cons.
    destruct (decide (_state s <> nullptr)) as [Hs|Hs]; simpl.
    + apply (update_all_failed s (n :: sts) Hs).
    + apply dec_stable in Hs.
      change (update_all chk g s (n :: sts))
        with (update_all chk g (update chk g s n).1 sts).
      rewrite IH.
      pose proof (update_state chk g s n) as Hu.
      rewrite bool_decide_eq_true_2 in Hu by exact Hs.
      rewrite !filter_cons.
      destruct (decide (_state n <> nullptr)) as [Hn|Hn].
      * rewrite decide_True; [exact Hu|].
        intros E; rewrite E in Hu; simpl in Hu.
        destruct (_state n); [congruence | discriminate | discriminate].
      * apply dec_stable in Hn.
        rewrite decide_False; [reflexivity|].
        rewrite Hn in Hu; simpl in Hu.
        destruct (_state (update chk g s n).1); [tauto | discriminate | discriminate].
Qed.

(** X6.  What [update] does to the check marks (both overloads, with
    STARROCKS_ASSERT_STATUS_CHECKED): the argument counts as inspected
    whether it is adopted or dropped, so the later failure that
    first-error-wins discards is never reported; a target that adopts the
    argument has to be checked again; a target that holds a failure counts
    as inspected from then on. *)
Theorem update_check_marks (s n : Status) :
  let u := update true g s n in
  let m := update_move true s n in
  _checked u.2 = true /\ _checked m.2 = true
  /\ _checked u.1 = negb (ok true s).1
  /\ _checked m.1 = negb (ok true s).1.
Proof.
  unfold update, update_move, ok, copy_assign, move_assign, copy_construct,
    move_construct, must_check, mark_checked; simpl.
  case_bool_decide; simpl; repeat split; reflexivity.
Qed.

End WithBuild.

Lemma destructor_reports_the_uninspected_witness :
  reported_unchecked (destroy true (NotFound "tablet 7")) = true
  /\ reported_unchecked (destroy true (ok true (NotFound "tablet 7")).2) = false
  /\ reported_unchecked (destroy false (NotFound "tablet 7")) = false.
Proof.
  pose (g0 := StateCells INTERNAL_ERROR EmptyString EmptyString).
  pose (s0 := NotFound "tablet 7").
  destruct (destructor_reports_the_uninspected true g0 s0 (ok true s0).2)
    as (H1 & H2 & _).
  destruct (destructor_reports_the_uninspected false g0 s0 s0) as (_ & _ & H3).
  split; [exact (H1 (fresh_ctor true g0 NOT_FOUND _ _))|].
  split; [exact (proj2 (H2 (inspected_ok true g0 s0))) | exact (H3 eq_refl)].
Defined.

(** X7.  The two tables of the fault injection agree: for every index the
    factory [random[index % SIZE]] makes a Status whose code is
    [codes[index % SIZE]], the code [RETURN_INJECT] writes into the
    message, and that code is never OK - JsonFormatError standing under
    DATA_QUALITY_ERROR, as its factory has it. *)
Theorem inject_tables_agree (g : state_cells) (index : Z) (msg : string) :
  exists f c,
    random !! Z.to_nat (index mod Z.of_nat SIZE) = Some f
    /\ codes !! Z.to_nat (index mod Z.of_nat SIZE) = Some c
    /\ code_of g (_state (f msg)) = c
    /\ c <> OK.
Proof.
  assert (Hr : (0 <= index mod Z.of_nat SIZE < 24)%Z)
    by (apply Z.mod_pos_bound; reflexivity).
  set (i := Z.to_nat (index mod Z.of_nat SIZE)).
  assert (Hi : i < 24) by (subst i; lia).
  clearbody i; clear Hr.
  do 24 (destruct i as [|i];
         [do 2 eexists; repeat split; try reflexivity; discriminate|]).
  lia.
Qed.

(** X8.  [RETURN_IF_ERROR] with fault injection: when the draw falls under
    the bound in an injected directory, [stmt] is not run at all - the
    state is as before - and a failure is returned with the code the
    tables give for the draw; otherwise the macro is the plain one, run on
    what [stmt] returns. *)
Theorem injection_skips_the_statement {S : Type}
    (show_code : TStatusCode.type -> string) (chk : bool) (g : state_cells)
    (seed boundary_value : Z) (in_directory : bool)
    (stmt : S -> Status * S) (FILE : string) (LINE : Z) (text : string) (s : S) :
  let r := RETURN_IF_ERROR_injecting show_code chk g seed boundary_value
             in_directory stmt FILE LINE text s in
  if (seed <=? boundary_value)%Z && in_directory then
    r.2 = s
    /\ exists st c,
         r.1 = Some st
         /\ codes !! Z.to_nat (seed mod Z.of_nat SIZE) = Some c
         /\ code_of g (_state st) = c
         /\ (ok chk st).1 = false
  else
    r = (RETURN_IF_ERROR chk g (stmt s).1 FILE LINE text, (stmt s).2).
Proof.
  unfold RETURN_IF_ERROR_injecting.
  destruct ((seed <=? boundary_value)%Z && in_directory); simpl.
  - split; [reflexivity|].
    unfold RETURN_INJECT.
    assert (Hr : (0 <= seed mod Z.of_nat SIZE < 24)%Z)
      by (apply Z.mod_pos_bound; reflexivity).
    set (i := Z.to_nat (seed mod Z.of_nat SIZE)) in *.
    assert (Hi : i < 24) by (subst i; lia).
    clearbody i; clear Hr.
    do 24 (destruct i as [|i];
           [cbn [lookup list_lookup codes random mbind option_bind];
            do 2 eexists; repeat split; reflexivity|]).
    lia.
  - destruct (stmt s); reflexivity.
Qed.

End StatusMoreProps.

(** ** More properties of the spill directory manager *)
Module SpillMoreProps.

Import TStatusCode StatusModel Regex Spill SpillMore RegexProps SpillProps.

Lemma list_ascii_of_append (a b : string) :
  list_ascii_of_string (a +:+ b)
  = list_ascii_of_string a ++ list_ascii_of_string b.
Proof.
  induction a as [|c a IH]; [reflexivity|].
  change (String c a +:+ b) with (String c (a +:+ b)).
  simpl; f_equal; exact IH.
Qed.

Lemma length_append (a b : string) :
  String.length (a +:+ b) = String.length a + String.length b.
Proof.
  induction a as [|c a IH]; [reflexivity|].
  change (String c a +:+ b) with (String c (a +:+ b)).
  simpl; f_equal; exact IH.
Qed.

Lemma hex_group_plain n x :
  hex_group n x ->
  Forall (fun c => In c plain_chars) (list_ascii_of_string x).
Proof.
  intros [_ H]; eapply Forall_impl; [exact H|].
  intros c Hc; unfold lower_hex_digit in Hc; unfold plain_chars.
  change (list_ascii_of_string "0123456789abcdef-")
    with (list_ascii_of_string "0123456789abcdef" ++ ["-"%char]).
  apply in_or_app; left; exact Hc.
Qed.

(** X9.  A name the pattern of line 60 accepts is 36 characters long and
    made of lowercase hexadecimal digits and hyphens only: it holds no
    path separator and no dot, so [spill_dir_path + "/" + sub_dir] names
    an entry of the spill directory itself, never the directory, its
    parent or anything deeper. *)
Theorem matching_names_are_plain (n : string) :
  regex_match n query_id_pattern = true ->
  String.length n = 36
  /\ Forall (fun c => In c plain_chars) (list_ascii_of_string n)
  /\ ~ In "/"%char (list_ascii_of_string n)
  /\ ~ In "."%char (list_ascii_of_string n).
Proof.
  intros Hm; apply regex_match_query_id in Hm.
  destruct Hm as (a & b & c & d & e & -> & Ha & Hb & Hc & Hd & He).
  assert (Hall : Forall (fun c => In c plain_chars)
                   (list_ascii_of_string
                      (a +:+ "-" +:+ b +:+ "-" +:+ c +:+ "-" +:+ d +:+ "-" +:+ e))).
  { assert (Hy : Forall (fun c => In c plain_chars) (list_ascii_of_string "-"))
      by (repeat constructor; unfold plain_chars; simpl; tauto).
    rewrite !list_ascii_of_append.
    repeat (apply Forall_app; split);
      eauto using hex_group_plain. }
  split; [|split; [exact Hall|]].
  - rewrite !length_append.
    destruct Ha as [-> _], Hb as [-> _], Hc as [-> _], Hd as [-> _], He as [-> _].
    reflexivity.
  - rewrite Forall_forall in Hall; split; intros Hin;
      apply list_elem_of_In, Hall in Hin;
      unfold plain_chars in Hin; simpl in Hin;
      repeat (destruct Hin as [Hin|Hin]; [discriminate Hin|]); exact Hin.
Qed.

Lemma matching_names_are_plain_witness :
  String.length SpillDemo.residue = 36.
Proof.
  exact (proj1 (matching_names_are_plain SpillDemo.residue
                  ltac:(vm_compute; reflexivity))).
Defined.

Section Acquire.

Variable IDX_VALUES : N.

Lemma acquire_step (m : DirManager) :
  (N.of_nat (_idx m) + 1 < IDX_VALUES)%N ->
  acquire_writable_dir IDX_VALUES m
  = (_dirs m !! (_idx m mod length (_dirs m)),
     MkDirManager (_dirs m) (S (_idx m))).
Proof.
  intros Hlt; unfold acquire_writable_dir; do 2 f_equal.
  rewrite N.mod_small by exact Hlt; lia.
Qed.

Lemma acquire_many_spec (k : nat) (m : DirManager) :
  (N.of_nat (_idx m + k) < IDX_VALUES)%N ->
  acquire_many IDX_VALUES k m
  = (map (fun j => _dirs m !! ((_idx m + j) mod length (_dirs m))) (seq 0 k),
     MkDirManager (_dirs m) (_idx m + k)).
Proof.
  revert m; induction k as [|k IH]; intros [dirs idx] Hlt;
    cbn [acquire_many _dirs _idx seq map] in *.
  - rewrite Nat.add_0_r; reflexivity.
  - rewrite acquire_step by (cbn [_idx]; lia); cbn [_dirs _idx].
    rewrite IH by (cbn [_idx]; lia); cbn [_dirs _idx].
    rewrite Nat.add_0_r; f_equal; [|f_equal; lia].
    f_equal.
    rewrite <- seq_shift, map_map.
    apply map_ext; intros j; do 2 f_equal; lia.
Qed.

Lemma rotate_nat_add_mod (b o n : nat) :
  rotate_nat_add b o n = (b + o) mod n.
Proof.
  unfold rotate_nat_add.
  rewrite <- Nat2Z.inj_add, <- Nat2Z.inj_mod, Nat2Z.id; reflexivity.
Qed.

(** X10.  [acquire_writable_dir] hands out the directories in turn.  With
    at least one directory and the counter short of its wrap-around, the
    call number [j] returns directory [(_idx + j) mod size], which exists;
    the counter goes up by one a call and [_dirs] is left alone; and over
    [size] calls in a row every directory comes exactly once: the answers
    are [_dirs] rotated by [_idx]. *)
Theorem acquire_round_robin (k : nat) (m : DirManager) :
  _dirs m <> [] ->
  (N.of_nat (_idx m + k) < IDX_VALUES)%N ->
  let n := length (_dirs m) in
  let r := acquire_many IDX_VALUES k m in
  r.1 = map (fun j => _dirs m !! ((_idx m + j) mod n)) (seq 0 k)
  /\ Forall is_Some r.1
  /\ r.2 = MkDirManager (_dirs m) (_idx m + k)
  /\ (k = n -> r.1 = Some <$> rotate (_idx m) (_dirs m)).
Proof.
  intros Hne Hlt n r; subst r; rewrite acquire_many_spec by exact Hlt; simpl.
  assert (Hn : 0 < n) by (subst n; destruct (_dirs m); simpl; [congruence | lia]).
  split; [reflexivity|]; split; [|split; [reflexivity|]].
  - apply Forall_forall; intros x Hx.
    apply list_elem_of_In, in_map_iff in Hx as (j & <- & _).
    apply lookup_lt_is_Some, Nat.mod_upper_bound; lia.
  - intros ->; apply list_eq; intros j.
    rewrite !list_lookup_fmap.
    destruct (decide (j < n)) as [Hj|Hj].
    + rewrite lookup_seq_lt by exact Hj; simpl.
      rewrite lookup_rotate_r by exact Hj.
      rewrite rotate_nat_add_mod.
      destruct (lookup_lt_is_Some_2 (_dirs m) ((_idx m + j) mod n)) as [d Hd];
        [apply Nat.mod_upper_bound; lia|].
      fold n; rewrite Hd; reflexivity.
    + rewrite lookup_seq_ge by lia; simpl.
      rewrite (lookup_ge_None_2 (rotate _ _)); [reflexivity|].
      rewrite length_rotate; fold n; lia.
Qed.

End Acquire.

Lemma acquire_round_robin_witness :
  (acquire_many (2 ^ 64) 3 (MkDirManager ["/a"; "/b"; "/c"] 4)).1
  = Some <$> rotate 4 ["/a"; "/b"; "/c"].
Proof.
  refine (proj2 (proj2 (proj2
            (acquire_round_robin (2 ^ 64) 3 (MkDirManager ["/a"; "/b"; "/c"] 4)
               _ _))) eq_refl).
  - discriminate.
  - vm_compute; reflexivity.
Defined.

Section Init.

Context {F : Type} `{FileSystem F}.
Variable chk : bool.
Variable g : state_cells.
Variable parse_conf_store_paths : string -> Status * list StorePath.
Variable get_store_paths : list string.
Variable check_datapath_rw : string -> bool.
Variable ignore_broken_disk : bool.
Variable iterate_dir_LINE : Z.
Variable iterate_dir_stmt : string.

Abbreviation check_paths_ :=
  (check_paths get_store_paths check_datapath_rw ignore_broken_disk).
Abbreviation init_ :=
  (init chk g parse_conf_store_paths get_store_paths check_datapath_rw
        ignore_broken_disk iterate_dir_LINE iterate_dir_stmt).

Abbreviation prepare_dir_ :=
  (prepare_dir chk g iterate_dir_LINE iterate_dir_stmt).
Abbreviation prepare_dirs_ :=
  (prepare_dirs chk g iterate_dir_LINE iterate_dir_stmt).

Abbreviation usable_ := (usable check_datapath_rw).
Abbreviation fs_failures_fail_ := (fs_failures_fail F).

(** What the loop of lines 36-55 leaves when it does not return. *)
Lemma check_paths_inr paths kept :
  check_paths_ paths = inr kept ->
  kept = usable_ paths
  /\ Forall (fun p => path p ∉ get_store_paths) paths
  /\ (ignore_broken_disk = true \/ kept = paths).
Proof.
  revert kept; induction paths as [|p paths IH]; intros kept; simpl.
  - intros [= <-]; repeat split; auto.
  - case_bool_decide as Hin; [discriminate|].
    destruct (check_datapath_rw (path p)) eqn:Hrw; simpl.
    + destruct (check_paths_ paths) as [e|k]; [discriminate|].
      intros [= <-]; destruct (IH k eq_refl) as (-> & Hall & Hig).
      repeat split; [constructor; assumption|].
      destruct Hig as [?|E]; [left; assumption | right; f_equal; exact E].
    + destruct ignore_broken_disk; [|discriminate].
      intros E; destruct (IH kept E) as (-> & Hall & _).
      repeat split; [constructor; assumption | left; reflexivity].
Qed.

Lemma check_paths_conflict pre p post :
  path p ∈ get_store_paths ->
  (forall q, q ∈ pre ->
     (path q ∉ get_store_paths)
     /\ (check_datapath_rw (path q) = true \/ ignore_broken_disk = true)) ->
  check_paths_ (pre ++ p :: post)
  = inl (InvalidArgument
           ("spill_local_storage_dir " +:+ path p +:+
            " already exists in storage_root_path, please use another path")).
Proof.
  intros Hp; induction pre as [|q pre IH]; intros Hpre; simpl.
  - rewrite bool_decide_eq_true_2 by exact Hp; reflexivity.
  - destruct (Hpre q) as [Hq Hrw]; [left|].
    rewrite bool_decide_eq_false_2 by exact Hq.
    rewrite IH by (intros r Hr; apply Hpre; right; exact Hr).
    destruct (check_datapath_rw (path q)); simpl; [reflexivity|].
    destruct Hrw as [?|E]; [discriminate | rewrite E; reflexivity].
Qed.

(** What the loop of lines 36-55 returns is a failure. *)
Lemma check_paths_inl paths e :
  check_paths_ paths = inl e -> _state e <> nullptr.
Proof.
  revert e; induction paths as [|p paths IH]; intros e; simpl; [discriminate|].
  case_bool_decide; [intros [= <-]; discriminate|].
  destruct (negb (check_datapath_rw (path p))).
  - destruct ignore_broken_disk; [apply IH | intros [= <-]; discriminate].
  - destruct (check_paths_ paths) as [e'|]; [|discriminate].
    intros [= <-]; apply (IH e' eq_refl).
Qed.

(** X11.  A configured spill path that is also a storage root path makes
    [init] return InvalidArgument naming it, provided the loop gets that
    far (the paths before it are no storage paths and pass the read-write
    test, or broken disks are ignored) - and then [init] has touched
    nothing: no directory created, none deleted, none registered. *)
Theorem init_rejects_storage_paths spill_dirs (w : world F) pre p post :
  (ok chk (parse_conf_store_paths spill_dirs).1).1 = true ->
  (parse_conf_store_paths spill_dirs).2 = pre ++ p :: post ->
  path p ∈ get_store_paths ->
  (forall q, q ∈ pre ->
     (path q ∉ get_store_paths)
     /\ (check_datapath_rw (path q) = true \/ ignore_broken_disk = true)) ->
  init_ spill_dirs w
  = (InvalidArgument
       ("spill_local_storage_dir " +:+ path p +:+
        " already exists in storage_root_path, please use another path"), w).
Proof.
  intros Hok Hpaths Hp Hpre; unfold init.
  destruct (parse_conf_store_paths spill_dirs) as [st paths]; simpl in *.
  rewrite (RETURN_IF_ERROR_passed _ _ _ _ _ _ Hok); subst paths.
  rewrite bool_decide_eq_false_2 by (destruct pre; discriminate).
  rewrite (check_paths_conflict pre p post Hp Hpre); reflexivity.
Qed.

(** A failure handed on by [RETURN_IF_ERROR] is a failure. *)
Lemma RETURN_IF_ERROR_Some st file line stmt e :
  RETURN_IF_ERROR chk g st file line stmt = Some e -> _state e <> nullptr.
Proof.
  unfold RETURN_IF_ERROR, ok, clone_and_append_context; simpl.
  case_bool_decide as E; [discriminate|].
  rewrite StatusProps.state_mark_checked.
  intros [= <-]; destruct (_state st); simpl; congruence.
Qed.

Lemma prepare_dir_registers p (w : world F) :
  let r := prepare_dir chk g iterate_dir_LINE iterate_dir_stmt p w in
  _idx (manager r.2) = _idx (manager w)
  /\ match r.1 with
     | None => _dirs (manager r.2) = _dirs (manager w) ++ [path p]
     | Some e => _dirs (manager r.2) = _dirs (manager w)
                 /\ (fs_failures_fail_ -> _state e <> nullptr)
     end.
Proof.
  unfold prepare_dir.
  destruct (CreateSharedFromString (path p) (disk w)) as [e|] eqn:Efs.
  { simpl; repeat split; intros Hfs.
    unfold clone_and_append_context.
    rewrite StatusProps.state_mark_checked.
    specialize (Hfs _ _ _ Efs); destruct (_state e); simpl; congruence. }
  destruct (create_dir_if_missing (path p) (disk w)) as [st d].
  cbv beta iota zeta.
  destruct (RETURN_IF_ERROR chk g st FILE 65 _) as [e|] eqn:R1.
  { simpl; repeat split; intros _; eapply RETURN_IF_ERROR_Some; exact R1. }
  unfold iterate_dir; cbn [disk].
  destruct (dir_entries (path p) d) as [st' names].
  pose proof (visit_clean_residual (path p) names
                (MkWorld d (manager w) (deleted_dirs w))) as [Hm _].
  cbn [manager] in Hm.
  destruct (RETURN_IF_ERROR chk g st' FILE _ _) as [e|] eqn:R2;
    cbn [fst snd manager _dirs _idx]; rewrite Hm.
  - repeat split; intros _; eapply RETURN_IF_ERROR_Some; exact R2.
  - split; reflexivity.
Qed.

Lemma prepare_dirs_registers paths (w : world F) :
  let r := prepare_dirs chk g iterate_dir_LINE iterate_dir_stmt paths w in
  exists done,
    done `prefix_of` paths
    /\ _dirs (manager r.2) = _dirs (manager w) ++ map path done
    /\ _idx (manager r.2) = _idx (manager w)
    /\ match r.1 with
       | None => done = paths
       | Some e => fs_failures_fail_ -> _state e <> nullptr
       end.
Proof.
  revert w; induction paths as [|p paths IH]; intros w; simpl.
  - exists []; rewrite app_nil_r; repeat split; reflexivity.
  - pose proof (prepare_dir_registers p w) as [Hi Hd]; cbv zeta in Hi, Hd.
    destruct (prepare_dir chk g iterate_dir_LINE iterate_dir_stmt p w) as [[e|] w1]; simpl in *.
    + destruct Hd as [Hd He]; exists []; rewrite app_nil_r.
      repeat split; auto. apply prefix_nil.
    + destruct (IH w1) as (done & Hpre & Hdirs & Hidx & Hr).
      exists (p :: done); repeat split.
      * apply prefix_cons; exact Hpre.
      * rewrite Hdirs, Hd, <- app_assoc; reflexivity.
      * congruence.
      * destruct (prepare_dirs chk g iterate_dir_LINE iterate_dir_stmt paths w1).1; [exact Hr | f_equal; exact Hr].
Qed.

(** X12.  Whatever way [init] ends, the directories it has added to
    [_dirs] are configured paths that passed the read-write test and are
    no storage root paths, in the order of the configuration and without
    gaps, and the cursor [_idx] is not touched.  A failure half way
    leaves the earlier ones registered: when the loop of lines 62-80 has
    got through the directories before [p] and its body fails for [p],
    [init] returns that failure, in the world that body left, and [_dirs]
    has grown by exactly the directories before [p], each of them a path
    that passed the checks. *)
Theorem init_registers_checked_dirs spill_dirs (w : world F) :
  let r := init_ spill_dirs w in
  (exists done,
     _dirs (manager r.2) = _dirs (manager w) ++ map path done
     /\ _idx (manager r.2) = _idx (manager w)
     /\ done `prefix_of` usable_ (parse_conf_store_paths spill_dirs).2
     /\ Forall (fun p => path p ∉ get_store_paths) done)
  /\ (forall pre p post e,
        (ok chk (parse_conf_store_paths spill_dirs).1).1 = true ->
        check_paths_ (parse_conf_store_paths spill_dirs).2
        = inr (pre ++ p :: post) ->
        let reached := prepare_dirs_ pre w in
        reached.1 = None ->
        (prepare_dir_ p reached.2).1 = Some e ->
        r = (e, (prepare_dir_ p reached.2).2)
        /\ _dirs (manager r.2) = _dirs (manager w) ++ map path pre
        /\ Forall (fun q => (path q ∉ get_store_paths)
                            /\ check_datapath_rw (path q) = true) pre).
Proof.
  intros r; split.
  { subst r; unfold init.
    assert (Hnil : exists done : list StorePath,
               _dirs (manager w) = _dirs (manager w) ++ map path done
               /\ _idx (manager w) = _idx (manager w)
               /\ done `prefix_of` usable_ (parse_conf_store_paths spill_dirs).2
               /\ Forall (fun p => path p ∉ get_store_paths) done).
    { exists []; rewrite app_nil_r; repeat split; auto. apply prefix_nil. }
    destruct (parse_conf_store_paths spill_dirs) as [st paths]; simpl in *.
    destruct (RETURN_IF_ERROR chk g st FILE 28 _); [exact Hnil|].
    case_bool_decide; [exact Hnil|].
    destruct (check_paths_ paths) as [e|kept] eqn:Ek; [exact Hnil|].
    case_bool_decide; [exact Hnil|].
    destruct (check_paths_inr _ _ Ek) as (-> & Hall & _).
    destruct (prepare_dirs_registers (usable_ paths) w)
      as (done & Hpre & Hd & Hi & _).
    exists done.
    assert (Hdone : Forall (fun p => path p ∉ get_store_paths) done).
    { apply Forall_forall; intros p Hp.
      rewrite Forall_forall in Hall; apply Hall.
      destruct Hpre as [rest Hrest].
      assert (Hin : p ∈ usable_ paths) by (rewrite Hrest; apply elem_of_app; auto).
      apply list_elem_of_In, filter_In in Hin as [Hin _].
      apply list_elem_of_In; exact Hin. }
    destruct (prepare_dirs_ (usable_ paths) w) as [[e|] w1]; simpl in *;
      repeat split; assumption. }
  intros pre p post e Hok Hk reached Hpre Hp.
  assert (Hinit : r = (e, (prepare_dir_ p reached.2).2)).
  { subst r reached; unfold init.
    destruct (parse_conf_store_paths spill_dirs) as [st paths]; simpl in *.
    rewrite (RETURN_IF_ERROR_passed _ _ _ _ _ _ Hok).
    rewrite bool_decide_eq_false_2
      by (intros ->; simpl in Hk; destruct pre; discriminate).
    rewrite Hk.
    rewrite bool_decide_eq_false_2 by (destruct pre; discriminate).
    rewrite (prepare_dirs_app chk g iterate_dir_LINE iterate_dir_stmt).
    destruct (prepare_dirs_ pre w) as [[e'|] w1]; simpl in *; [discriminate|].
    destruct (prepare_dir_ p w1) as [[e'|] w2]; simpl in *; [|discriminate].
    congruence. }
  split; [exact Hinit|]; split.
  - rewrite Hinit; cbn [snd].
    pose proof (prepare_dir_registers p reached.2) as [_ Hd]; cbv zeta in Hd.
    rewrite Hp in Hd; destruct Hd as [Hd _]; rewrite Hd.
    pose proof (prepare_dirs_registers pre w) as (done & _ & Hds & _ & Hr).
    cbv zeta in Hds, Hr; fold reached in Hds, Hr.
    rewrite Hpre in Hr; subst done; exact Hds.
  - apply Forall_forall; intros q Hq.
    destruct (check_paths_kept get_store_paths check_datapath_rw
                ignore_broken_disk _ _ Hk q) as (_ & Hs & Hrw).
    + apply elem_of_app; left; exact Hq.
    + split; assumption.
Qed.

Variable IDX_VALUES : N.

(** X13.  When [init] returns OK, every configured path is outside the
    storage root paths, those that failed the read-write test were left
    out only because broken disks are ignored, at least one path is left,
    and [_dirs] has grown by exactly the paths that are left - so
    [acquire_writable_dir] has a directory to return. *)
Theorem init_ok_registers_all spill_dirs (w : world F) :
  fs_failures_fail_ ->
  let r := init_ spill_dirs w in
  let configured := (parse_conf_store_paths spill_dirs).2 in
  _state r.1 = nullptr ->
  usable_ configured <> []
  /\ Forall (fun p => path p ∉ get_store_paths) configured
  /\ (ignore_broken_disk = true \/ usable_ configured = configured)
  /\ _dirs (manager r.2) = _dirs (manager w) ++ map path (usable_ configured)
  /\ is_Some (acquire_writable_dir IDX_VALUES (manager r.2)).1.
Proof.
  intros Hfs r configured; subst r configured; unfold init.
  destruct (parse_conf_store_paths spill_dirs) as [st paths]; simpl.
  destruct (RETURN_IF_ERROR chk g st FILE 28 _) as [e|] eqn:R;
    [intros E; apply RETURN_IF_ERROR_Some in R; contradiction|].
  case_bool_decide; [discriminate|].
  destruct (check_paths_ paths) as [e|kept] eqn:Ek.
  { intros E; apply check_paths_inl in Ek; contradiction. }
  case_bool_decide as Hne; [discriminate|].
  destruct (check_paths_inr _ _ Ek) as (-> & Hall & Hig).
  pose proof (prepare_dirs_registers (usable_ paths) w)
    as (done & Hpre & Hd & Hi & Hr); cbv zeta in *.
  destruct (prepare_dirs chk g iterate_dir_LINE iterate_dir_stmt (usable_ paths) w) as [[e|] w1]; simpl in *.
  { intros E; apply Hr in Hfs; contradiction. }
  intros _; subst done.
  repeat split; try assumption.
  unfold acquire_writable_dir; simpl.
  apply lookup_lt_is_Some, Nat.mod_upper_bound.
  rewrite Hd, length_app, length_map.
  destruct (usable_ paths); simpl; [congruence | lia].
Qed.

End Init.

Import SpillDemo.

Lemma init_rejects_storage_paths_witness :
  conflicting_init
  = (InvalidArgument
       ("spill_local_storage_dir " +:+ "/data/spill" +:+
        " already exists in storage_root_path, please use another path"),
     demo_world).
Proof.
  refine (init_rejects_storage_paths (F := mem_fs) true demo_marker demo_parse
            ["/data/spill"] (fun _ => true) false 66 "fs->iterate_dir(...)"
            "/data/spill" demo_world
            [] (MkStorePath "/data/spill") [] _ _ _ _).
  - reflexivity.
  - reflexivity.
  - left.
  - intros q Hq; inversion Hq.
Defined.

Lemma init_ok_registers_all_witness :
  _dirs (manager demo_init.2) = [] ++ map path [MkStorePath "/data/spill"]
  /\ is_Some (acquire_writable_dir (2 ^ 64) (manager demo_init.2)).1.
Proof.
  assert (Hfs : fs_failures_fail mem_fs) by (intros p f e; discriminate).
  assert (Hok : _state demo_init.1 = nullptr) by (vm_compute; reflexivity).
  destruct (init_ok_registers_all (F := mem_fs) true demo_marker demo_parse
              ["/data/storage"] (fun _ => true) false
              66 "fs->iterate_dir(...)" (2 ^ 64)
              "/data/spill" demo_world Hfs Hok) as (_ & _ & _ & Hd & Ha).
  split; [exact Hd | exact Ha].
Defined.

Lemma init_registers_checked_dirs_witness :
  _dirs (manager SpillMounts.half_mounted_init.2)
  = [] ++ map path [MkStorePath "/mnt/a"]
  /\ _state SpillMounts.half_mounted_init.1 <> nullptr.
Proof.
  pose proof (proj2 (init_registers_checked_dirs (F := SpillMounts.mounts)
                true demo_marker SpillMounts.two_paths [] (fun _ => true) false
                66 "fs->iterate_dir(...)" "/mnt/a;/mnt/b"
                SpillMounts.half_mounted)
              [MkStorePath "/mnt/a"] (MkStorePath "/mnt/b") [] _
              eq_refl eq_refl eq_refl eq_refl) as (Hr & Hd & _).
  split; [exact Hd|].
  change (init true demo_marker SpillMounts.two_paths [] (fun _ => true) false
            66 "fs->iterate_dir(...)" "/mnt/a;/mnt/b" SpillMounts.half_mounted)
    with SpillMounts.half_mounted_init in Hr.
  rewrite Hr; vm_compute; discriminate.
Defined.

End SpillMoreProps.

(** ** What [DirManager::init] deletes and what it leaves *)
Module SpillInitProps.

Import TStatusCode StatusModel Regex Spill SpillMore SpillLaws RegexProps
  SpillProps SpillMoreProps.

Lemma filter_all {A} (P : A -> Prop) `{forall x, Decision (P x)} (l : list A) :
  (forall x, x ∈ l -> P x) -> filter P l = l.
Proof.
  induction l as [|x l IH]; intros Hall; [reflexivity|].
  rewrite filter_cons_True by (apply Hall; left).
  f_equal; apply IH; intros y Hy; apply Hall; right; exact Hy.
Qed.

Lemma surviving_idem names : surviving (surviving names) = surviving names.
Proof.
  unfold surviving; induction names as [|n names IH]; simpl; [reflexivity|].
  destruct (regex_match n query_id_pattern) eqn:E; simpl; [exact IH|].
  rewrite E; simpl; f_equal; exact IH.
Qed.

(** Taking the matching names of a listing out of it leaves the names the
    pattern does not accept. *)
Lemma survivors names l :
  (forall x, x ∈ l -> x ∈ names) ->
  filter (fun x => x ∉ matching names) l = surviving l.
Proof.
  induction l as [|x l IH]; intros Hsub; [reflexivity|].
  assert (Hx : x ∈ matching names <-> regex_match x query_id_pattern = true).
  { unfold matching; rewrite list_elem_of_In, filter_In, <- list_elem_of_In.
    split; [intros [_ E]; exact E | intros E; split; [apply Hsub; left | exact E]]. }
  unfold surviving; simpl; fold (surviving l).
  destruct (regex_match x query_id_pattern) eqn:E; simpl.
  - rewrite filter_cons_False by (intros Hn; apply Hn, Hx; reflexivity).
    apply IH; intros y Hy; apply Hsub; right; exact Hy.
  - rewrite filter_cons_True by (rewrite Hx; discriminate).
    f_equal; apply IH; intros y Hy; apply Hsub; right; exact Hy.
Qed.

Lemma elem_of_surviving n names :
  n ∈ surviving names <-> n ∈ names /\ ~ is_query_id_name n.
Proof.
  unfold surviving.
  rewrite list_elem_of_In, filter_In, <- list_elem_of_In, <- regex_match_query_id.
  destruct (regex_match n query_id_pattern); simpl; split; intros [? ?];
    split; auto; congruence.
Qed.

Section Init.

Context {F : Type} `{FileSystem F}.
Variable chk : bool.
Variable g : state_cells.
Variable parse_conf_store_paths : string -> Status * list StorePath.
Variable get_store_paths : list string.
Variable check_datapath_rw : string -> bool.
Variable ignore_broken_disk : bool.
Variable iterate_dir_LINE : Z.
Variable iterate_dir_stmt : string.

Abbreviation check_paths_ :=
  (check_paths get_store_paths check_datapath_rw ignore_broken_disk).
Abbreviation init_ :=
  (init chk g parse_conf_store_paths get_store_paths check_datapath_rw
        ignore_broken_disk iterate_dir_LINE iterate_dir_stmt).
Abbreviation prepare_dir_ :=
  (prepare_dir chk g iterate_dir_LINE iterate_dir_stmt).
Abbreviation prepare_dirs_ :=
  (prepare_dirs chk g iterate_dir_LINE iterate_dir_stmt).

(** The callback over a listing, in its own directory... *)
Lemma visit_entries dirs p l (w : world F) :
  spill_dir_laws dirs ->
  p ∈ dirs ->
  entries p (disk (visit (clean_residual p) l w))
  = filter (fun x => x ∉ matching l) (entries p (disk w)).
Proof.
  intros (Hdel & _ & _) Hp.
  revert w; induction l as [|n l IH]; intros w.
  - simpl; symmetry; apply filter_all; intros x _; apply not_elem_of_nil.
  - cbn [visit]; unfold clean_residual at 1, matching; cbn [List.filter].
    fold (matching l).
    destruct (regex_match n query_id_pattern) eqn:E.
    + pose proof (Hdel p n (disk w) Hp) as Hd.
      destruct (delete_dir_recursive (sub_path p n) (disk w)) as [st d'].
      cbn [snd] in Hd; rewrite IH; cbn [disk]; rewrite Hd.
      rewrite list_filter_filter; apply list_filter_iff; intros x.
      rewrite not_elem_of_cons; split; intros [? ?]; split; assumption.
    + apply IH.
Qed.

(** ... and in another spill directory. *)
Lemma visit_entries_other dirs p q l (w : world F) :
  spill_dir_laws dirs ->
  p ∈ dirs -> q ∈ dirs -> p <> q ->
  entries q (disk (visit (clean_residual p) l w)) = entries q (disk w).
Proof.
  intros (_ & Hother & _) Hp Hq Hne.
  revert w; induction l as [|n l IH]; intros w; [reflexivity|].
  cbn [visit]; unfold clean_residual at 1.
  destruct (regex_match n query_id_pattern); [|apply IH].
  pose proof (Hother q p n (disk w) Hq Hp Hne) as Hd.
  destruct (delete_dir_recursive (sub_path p n) (disk w)) as [st d'].
  cbn [snd] in Hd; rewrite IH; exact Hd.
Qed.

(** One directory of the loop that the body gets through. *)
Lemma prepare_dir_entries dirs p (w : world F) q :
  spill_dir_laws dirs ->
  path p ∈ dirs -> q ∈ dirs ->
  (prepare_dir_ p w).1 = None ->
  entries q (disk (prepare_dir_ p w).2)
  = if bool_decide (q = path p) then surviving (entries q (disk w))
    else entries q (disk w).
Proof.
  intros Hlaws Hp Hq; unfold prepare_dir.
  destruct (CreateSharedFromString (path p) (disk w)); [discriminate|].
  pose proof (proj2 (proj2 Hlaws) q (path p) (disk w) Hq Hp) as Hc.
  pose proof (proj2 (proj2 Hlaws) (path p) (path p) (disk w) Hp Hp) as Hcp.
  destruct (create_dir_if_missing (path p) (disk w)) as [st d].
  cbv beta iota zeta; cbn [snd] in Hc, Hcp.
  destruct (RETURN_IF_ERROR chk g st FILE 65 _); [discriminate|].
  unfold iterate_dir; cbn [disk].
  assert (En : (dir_entries (path p) d).2 = entries (path p) d) by reflexivity.
  destruct (dir_entries (path p) d) as [st' names]; cbn [snd] in En.
  destruct (RETURN_IF_ERROR chk g st' FILE _ _); [discriminate|].
  intros _; cbn [snd disk].
  case_bool_decide as E.
  - subst q; rewrite (visit_entries dirs) by assumption; cbn [disk].
    rewrite <- En, survivors by auto; rewrite En, Hcp; reflexivity.
  - rewrite (visit_entries_other dirs) by auto; exact Hc.
Qed.

Lemma prepare_dirs_entries dirs paths (w : world F) q :
  spill_dir_laws dirs ->
  (forall p, p ∈ paths -> path p ∈ dirs) -> q ∈ dirs ->
  (prepare_dirs_ paths w).1 = None ->
  entries q (disk (prepare_dirs_ paths w).2)
  = if bool_decide (q ∈ map path paths) then surviving (entries q (disk w))
    else entries q (disk w).
Proof.
  intros Hlaws Hsub Hq; revert w; induction paths as [|p paths IH]; intros w.
  - intros _; reflexivity.
  - cbn [prepare_dirs].
    pose proof (prepare_dir_entries dirs p w q Hlaws (Hsub p ltac:(left)) Hq)
      as Hp.
    destruct (prepare_dir_ p w) as [[e|] w1]; [discriminate|].
    cbn [fst snd] in Hp; intros Hrest.
    rewrite IH by (auto; intros p' Hp'; apply Hsub; right; exact Hp').
    rewrite (Hp eq_refl); cbn [map].
    destruct (decide (q = path p)) as [->|Hne].
    + rewrite (bool_decide_eq_true_2 (path p = path p)) by reflexivity.
      rewrite (bool_decide_eq_true_2 (path p ∈ path p :: map path paths))
        by left.
      destruct (bool_decide (path p ∈ map path paths));
        [apply surviving_idem | reflexivity].
    + rewrite (bool_decide_eq_false_2 (q = path p)) by exact Hne.
      destruct (decide (q ∈ map path paths)) as [Hin|Hin].
      * rewrite !bool_decide_eq_true_2; [reflexivity | right; exact Hin | exact Hin].
      * rewrite !bool_decide_eq_false_2; [reflexivity | | exact Hin].
        intros Hc; apply elem_of_cons in Hc as [?|?]; contradiction.
Qed.

(** C9.  What [DirManager::init] deletes in the spill directories.
    (1) The pattern of line 60 accepts exactly the names of the 8-4-4-4-12
    lowercase-hexadecimal form.  (2) When [init] reaches a directory [p]
    that passed the checks - the loop of lines 62-80 got through the
    directories before it - and lists it, [init] calls
    [delete_dir_recursive] on the entries of [p] whose names have that
    form, in the order of the listing, and for an entry of the listing
    that call is among those made for [p] if and only if its name has
    that form.  (3) Whatever way [init] ends, every path it called
    [delete_dir_recursive] on is such an entry of a configured directory
    that is no storage root path; nothing else is deleted.  (4) On a file
    system where deleting an entry takes it, and nothing else, out of the
    spill directories, once [init] has returned OK every configured
    directory that passed the read-write test holds exactly the entries
    it held before whose names do not have that form: an entry it held is
    still there if and only if its name does not match. *)
Theorem init_cleans_query_id_dirs :
  (forall n, regex_match n query_id_pattern = true <-> is_query_id_name n)
  /\ (forall (spill_dirs : string) (w : world F) pre p post names,
        (ok chk (parse_conf_store_paths spill_dirs).1).1 = true ->
        check_paths_ (parse_conf_store_paths spill_dirs).2
        = inr (pre ++ p :: post) ->
        let reached := prepare_dirs_ pre w in
        reached.1 = None ->
        CreateSharedFromString (path p) (disk reached.2) = None ->
        let created := create_dir_if_missing (path p) (disk reached.2) in
        (ok chk created.1).1 = true ->
        (dir_entries (path p) created.2).2 = names ->
        let own := map (sub_path (path p)) (matching names) in
        exists before after,
          deleted_dirs (init_ spill_dirs w).2
          = deleted_dirs w ++ before ++ own ++ after
          /\ deleted_dirs reached.2 = deleted_dirs w ++ before
          /\ forall n, n ∈ names ->
               (sub_path (path p) n ∈ own <-> is_query_id_name n))
  /\ (forall (spill_dirs : string) (w : world F),
        exists new,
          deleted_dirs (init_ spill_dirs w).2 = deleted_dirs w ++ new
          /\ forall d, d ∈ new ->
               exists p n,
                 p ∈ (parse_conf_store_paths spill_dirs).2
                 /\ (path p ∉ get_store_paths)
                 /\ d = sub_path (path p) n /\ is_query_id_name n)
  /\ (forall (spill_dirs : string) (w : world F),
        let kept := usable check_datapath_rw
                      (parse_conf_store_paths spill_dirs).2 in
        fs_failures_fail F ->
        spill_dir_laws (map path kept) ->
        _state (init_ spill_dirs w).1 = nullptr ->
        forall p, p ∈ kept ->
          entries (path p) (disk (init_ spill_dirs w).2)
          = surviving (entries (path p) (disk w))
          /\ forall n, n ∈ entries (path p) (disk w) ->
               (n ∈ entries (path p) (disk (init_ spill_dirs w).2)
                <-> ~ is_query_id_name n)).
Proof.
  split; [exact regex_match_query_id|]; split; [|split].
  - intros spill_dirs w pre p post names Hok Hk reached Hpre Hfs created Hc Hn own.
    pose proof (prepare_dirs_sound chk g iterate_dir_LINE iterate_dir_stmt pre w)
      as (before & Hb & _); fold reached in Hb.
    pose proof (prepare_dir_log chk g iterate_dir_LINE iterate_dir_stmt
                  p reached.2) as [Hd _]; cbv zeta in Hd.
    rewrite Hfs in Hd; fold created in Hd.
    assert (Hd' : deleted_dirs (prepare_dir_ p reached.2).2
                  = deleted_dirs reached.2 ++ own).
    { rewrite Hd; subst own; destruct created as [st d]; cbn [fst snd] in *.
      rewrite Hc, Hn; reflexivity. }
    clear Hd.
    assert (Hinit : exists after,
               deleted_dirs (init_ spill_dirs w).2
               = deleted_dirs (prepare_dir_ p reached.2).2 ++ after).
    { unfold init.
      destruct (parse_conf_store_paths spill_dirs) as [st paths]; simpl in *.
      rewrite (RETURN_IF_ERROR_passed _ _ _ _ _ _ Hok).
      rewrite bool_decide_eq_false_2
        by (intros ->; simpl in Hk; destruct pre; discriminate).
      rewrite Hk.
      rewrite bool_decide_eq_false_2 by (destruct pre; discriminate).
      rewrite (prepare_dirs_app chk g iterate_dir_LINE iterate_dir_stmt).
      subst reached.
      destruct (prepare_dirs_ pre w) as [[e'|] w1]; simpl in *; [discriminate|].
      pose proof (prepare_dirs_sound chk g iterate_dir_LINE iterate_dir_stmt
                    post (prepare_dir_ p w1).2) as (after & Ha & _).
      destruct (prepare_dir_ p w1) as [[e'|] w2]; simpl in *.
      - exists []; rewrite app_nil_r; reflexivity.
      - exists after.
        destruct (prepare_dirs_ post w2) as [[e'|] w3]; exact Ha. }
    destruct Hinit as (after & Hi).
    exists before, after; split; [|split].
    + rewrite Hi, Hd', Hb, <- !app_assoc; reflexivity.
    + exact Hb.
    + intros n Hin; subst own; apply in_matching; exact Hin.
  - intros spill_dirs w; unfold init.
    assert (Hnil : exists new : list string,
               deleted_dirs w = deleted_dirs w ++ new
               /\ forall d, d ∈ new ->
                    exists p n, p ∈ (parse_conf_store_paths spill_dirs).2
                      /\ (path p ∉ get_store_paths)
                      /\ d = sub_path (path p) n /\ is_query_id_name n).
    { exists []; rewrite app_nil_r; split; [reflexivity|].
      intros d Hd; inversion Hd. }
    destruct (parse_conf_store_paths spill_dirs) as [st paths]; simpl in *.
    destruct (RETURN_IF_ERROR chk g st FILE 28 _); [exact Hnil|].
    case_bool_decide; [exact Hnil|].
    destruct (check_paths_ paths) as [e|kept] eqn:Ek; [exact Hnil|].
    case_bool_decide; [exact Hnil|].
    destruct (prepare_dirs_sound chk g iterate_dir_LINE iterate_dir_stmt kept w)
      as (new & E & Hall).
    exists new; split.
    + destruct (prepare_dirs_ kept w) as [[e|] w1]; exact E.
    + intros d Hd; destruct (Hall d Hd) as (p & n & Hp & -> & Hn).
      destruct (check_paths_kept _ _ _ _ _ Ek p Hp) as (Hin & Hst & _).
      exists p, n; auto.
  - intros spill_dirs w kept Hfs Hlaws Hok p Hp.
    assert (Hrun : (prepare_dirs_ kept w).1 = None
                   /\ (init_ spill_dirs w).2 = (prepare_dirs_ kept w).2).
    { revert Hok; subst kept; unfold init.
      destruct (parse_conf_store_paths spill_dirs) as [st paths]; simpl in *.
      destruct (RETURN_IF_ERROR chk g st FILE 28 _) as [e|] eqn:R;
        [intros E; apply RETURN_IF_ERROR_Some in R; contradiction|].
      case_bool_decide; [discriminate|].
      destruct (check_paths_ paths) as [e|kept] eqn:Ek.
      { intros E; apply check_paths_inl in Ek; contradiction. }
      destruct (check_paths_inr _ _ _ _ _ Ek) as (-> & _ & _).
      case_bool_decide; [discriminate|].
      pose proof (prepare_dirs_registers chk g iterate_dir_LINE
                    iterate_dir_stmt (usable check_datapath_rw paths) w)
        as (done & _ & _ & _ & Hr).
      cbv zeta in Hr.
      destruct (prepare_dirs_ (usable check_datapath_rw paths) w)
        as [[e|] w1]; simpl in *.
      - intros E; apply Hr in Hfs; contradiction.
      - intros _; split; reflexivity. }
    destruct Hrun as [Hnone Hw].
    assert (Hin : path p ∈ map path kept)
      by (apply list_elem_of_In, in_map, list_elem_of_In; exact Hp).
    assert (He : entries (path p) (disk (init_ spill_dirs w).2)
                 = surviving (entries (path p) (disk w))).
    { rewrite Hw, (prepare_dirs_entries (map path kept) kept w (path p) Hlaws);
        auto.
      - rewrite bool_decide_eq_true_2 by exact Hin; reflexivity.
      - intros q Hq; apply list_elem_of_In, in_map, list_elem_of_In; exact Hq. }
    split; [exact He|].
    intros n Hn; rewrite He, elem_of_surviving.
    split; [intros [_ Hnot]; exact Hnot | intros Hnot; split; assumption].
Qed.

End Init.

(** The in-memory file system keeps these laws for one spill directory. *)
Lemma prefix_length a b :
  String.prefix a b = true -> String.length a <= String.length b.
Proof.
  revert b; induction a as [|c a IH]; intros b; simpl; [lia|].
  destruct b as [|c' b]; simpl; [discriminate|].
  destruct (ascii_dec c c'); [|discriminate].
  intros E; apply IH in E; lia.
Qed.

Lemma not_under p n : under (sub_path p n) p = false.
Proof.
  unfold under, sub_path; apply orb_false_intro.
  - apply bool_decide_eq_false_2; intros E.
    apply (f_equal String.length) in E; rewrite !length_append in E.
    simpl in E; lia.
  - destruct (String.prefix _ p) eqn:E; [|reflexivity].
    apply prefix_length in E; rewrite !length_append in E; simpl in E; lia.
Qed.

Lemma entries_listing p (fs : mem_fs) : entries p fs = listing p fs.
Proof.
  unfold entries, listing; simpl; destruct (mem_lookup p fs); reflexivity.
Qed.

Lemma listing_cons p q names (fs : mem_fs) :
  listing p ((q, names) :: fs)
  = if bool_decide (q = p) then names else listing p fs.
Proof.
  unfold listing, mem_lookup; simpl; destruct (bool_decide (q = p)); reflexivity.
Qed.

Lemma listing_delete p n (fs : mem_fs) :
  listing p (mem_delete (sub_path p n) fs)
  = filter (fun m => m <> n) (listing p fs).
Proof.
  unfold mem_delete; induction fs as [|[q names] fs IH].
  - reflexivity.
  - rewrite (listing_cons p q names fs).
    destruct (under (sub_path p n) q) eqn:Eu.
    + cbn [filter list_filter].
      rewrite decide_False by (rewrite Eu; discriminate).
      rewrite bool_decide_eq_false_2; [exact IH|].
      intros ->; rewrite not_under in Eu; discriminate.
    + cbn [filter list_filter].
      rewrite decide_True by exact Eu.
      cbn [map]; rewrite listing_cons.
      case_bool_decide as E; [|exact IH].
      subst q; apply list_filter_iff; intros m; split; intros Hm E; apply Hm.
      * subst m; reflexivity.
      * apply (sub_path_inj p); exact E.
Qed.

Lemma mem_lookup_cons p q names (fs : mem_fs) :
  mem_lookup p ((q, names) :: fs)
  = if bool_decide (q = p) then Some names else mem_lookup p fs.
Proof.
  unfold mem_lookup; simpl; destruct (bool_decide (q = p)); reflexivity.
Qed.

Lemma listing_new_dir p (fs : mem_fs) :
  mem_lookup p fs = None -> listing p (fs ++ [(p, [])]) = [].
Proof.
  induction fs as [|[q names] fs IH]; intros E.
  - simpl; rewrite listing_cons, bool_decide_eq_true_2; reflexivity.
  - rewrite mem_lookup_cons in E.
    change (((q, names) :: fs) ++ [(p, [])])
      with ((q, names) :: (fs ++ [(p, [])])).
    rewrite listing_cons.
    destruct (bool_decide (q = p)); [discriminate | apply IH, E].
Qed.

Lemma listing_create p (fs : mem_fs) :
  listing p (create_dir_if_missing p fs).2 = listing p fs.
Proof.
  simpl; destruct (mem_lookup p fs) as [names|] eqn:E; [reflexivity|].
  rewrite (listing_new_dir p fs E); unfold listing; rewrite E; reflexivity.
Qed.

Lemma mem_fs_one_dir_laws p : spill_dir_laws (F := mem_fs) [p].
Proof.
  split; [|split].
  - intros q n d Hq; apply list_elem_of_singleton in Hq as ->.
    rewrite !entries_listing; apply listing_delete.
  - intros q r n d Hq Hr Hne.
    apply list_elem_of_singleton in Hq as ->.
    apply list_elem_of_singleton in Hr as ->; contradiction.
  - intros q r d Hq Hr.
    apply list_elem_of_singleton in Hq as ->.
    apply list_elem_of_singleton in Hr as ->.
    rewrite !entries_listing; apply listing_create.
Qed.

Import SpillDemo.

Lemma init_cleans_query_id_dirs_witness :
  (exists before after,
     deleted_dirs demo_init.2
     = deleted_dirs demo_world ++ before
       ++ map (sub_path "/data/spill")
            (matching [residue; "lost+found"; look_alike]) ++ after)
  /\ entries "/data/spill" (disk demo_init.2)
     = surviving (entries "/data/spill" (disk demo_world)).
Proof.
  pose proof (init_cleans_query_id_dirs (F := mem_fs) true demo_marker
                demo_parse ["/data/storage"] (fun _ => true) false
                66 "fs->iterate_dir(...)") as (_ & Hcalls & _ & Htree).
  split.
  - destruct (Hcalls "/data/spill" demo_world [] (MkStorePath "/data/spill") []
                [residue; "lost+found"; look_alike]
                eq_refl eq_refl eq_refl eq_refl eq_refl eq_refl)
      as (before & after & E & _).
    exists before, after; exact E.
  - assert (Hfs : fs_failures_fail mem_fs) by (intros p f e; discriminate).
    assert (Hok : _state demo_init.1 = nullptr) by (vm_compute; reflexivity).
    exact (proj1 (Htree "/data/spill" demo_world
                    Hfs (mem_fs_one_dir_laws "/data/spill") Hok
                    (MkStorePath "/data/spill") ltac:(left))).
Defined.

End SpillInitProps.

(** ** More properties of HashJoinBuildOperator *)
Module HashJoinMoreProps.

Import TStatusCode StatusModel HashJoinBuild HashJoinBuildMore Casts
  StatusProps HashJoinProps.

Local Open Scope Z_scope.

Ltac innermost x :=
  match x with
  | context [match ?y with _ => _ end] => innermost y
  | _ => destruct x eqn:?
  end.

Ltac branch :=
  match goal with
  | |- context [match ?x with _ => _ end] => innermost x
  end; cbn in *.

Ltac run_body :=
  cbv [mbind M_bind mret M_ret RETURN_IF_ERROR_ DeferOp DCHECK CHECK
       publish_merged on_core on_joiner on_merger log submit_partial_filters
       RETURN_IF_ERROR function function_with]; cbn.

(** The sum of lines 126-131 is the sum of the sizes modulo 2^64. *)
Lemma total_bf_bytes_from (l : RuntimeBloomFilters) (a : Z) :
  fold_left (fun total desc => (total + bf_size desc) mod 2 ^ 64) l (a mod 2 ^ 64)
  = (a + foldr Z.add 0 (map bf_size l)) mod 2 ^ 64.
Proof.
  revert a; induction l as [|d l IH]; intros a; simpl.
  - rewrite Z.add_0_r; reflexivity.
  - rewrite Zplus_mod_idemp_l, IH; f_equal; lia.
Qed.

(** X14.  The bytes [set_finishing] adds to the counter are the sum of
    [bf_alloc_size()] over the merged descriptors that have a filter,
    taken modulo 2^64: descriptors without a filter add nothing, the
    result lies in [0, 2^64), and it is the plain sum whenever the sizes
    are not negative and their sum fits 64 bits. *)
Theorem total_bf_bytes_is_the_sum (l : RuntimeBloomFilters) :
  let sum := foldr Z.add 0 (map bf_size l) in
  total_bf_bytes l = sum mod 2 ^ 64
  /\ 0 <= total_bf_bytes l < 2 ^ 64
  /\ total_bf_bytes (List.filter (fun d => bool_decide (runtime_filter d <> None)) l)
     = total_bf_bytes l
  /\ (if bool_decide (0 <= sum < 2 ^ 64) then total_bf_bytes l = sum else True).
Proof.
  intros sum.
  assert (E : forall l', total_bf_bytes l'
                         = foldr Z.add 0 (map bf_size l') mod 2 ^ 64).
  { intros l'; unfold total_bf_bytes.
    change 0 with (0 mod 2 ^ 64) at 1.
    apply (total_bf_bytes_from l' 0). }
  split; [apply E|]; split; [rewrite E; apply Z.mod_pos_bound; lia|]; split.
  - rewrite !E; f_equal.
    clear; induction l as [|d l IH]; [reflexivity|]; simpl.
    case_bool_decide as Hd; simpl; [f_equal; exact IH|].
    unfold bf_size at 2; rewrite Hd, IH; reflexivity.
  - case_bool_decide as Hs; [|exact I].
    rewrite E; apply Z.mod_small; exact Hs.
Qed.

(** X15.  The factory sizes the slots for the retained key columns when it
    creates its first operator with a positive degree of parallelism, one
    slot a lane; later calls of [create] leave the slots as they are,
    whatever degree they are given; and every lane below that degree finds
    its slot: what [retain_string_key_columns] puts there is read back, the
    number of slots unchanged. *)
Theorem create_sizes_the_slots_once {C : Type} `{JoinerCore C}
    (node : Z) (mode : TJoinDistributionMode) (dop dop' lane : nat)
    (seq seq' : Z) (columns : Columns) (s : state (C := C)) :
  (0 < dop)%nat -> (lane < dop)%nat ->
  let slots := (create node mode dop seq []).2 in
  let kept := (retain_string_key_columns (Z.of_nat lane) columns
                 (s.1, set_retained slots s.2)).2 in
  length slots = dop
  /\ (create node mode dop' seq' slots).2 = slots
  /\ retained_string_key_columns kept.2 !! lane = Some columns
  /\ length (retained_string_key_columns kept.2) = dop.
Proof.
  intros Hdop Hlane slots kept.
  assert (Hlen : length slots = dop) by (apply length_replicate).
  split; [exact Hlen|]; split.
  - unfold create; simpl; subst slots; simpl.
    destruct dop; [lia | reflexivity].
  - subst kept; unfold retain_string_key_columns, modify; simpl.
    rewrite Nat2Z.id, length_insert.
    split; [apply list_lookup_insert_eq; lia | exact Hlen].
Qed.

Lemma create_sizes_the_slots_once_witness :
  length (create 7 PARTITIONED 4 0 []).2 = 4%nat.
Proof.
  exact (proj1 (create_sizes_the_slots_once (C := HashJoinDemo.table)
                  7 PARTITIONED 4 9 2 0 5 [1; 2] HashJoinDemo.fed_lane
                  ltac:(lia) ltac:(lia))).
Defined.

Section Operator.

Context {C : Type} `{JoinerCore C}.
Variable chk : bool.
Variable g : state_cells.
Variable NDEBUG : bool.
Variable ONCE_DETECTORS : bool.
Variable Operator_prepare : Status.

Local Arguments ok : simpl never.
Local Arguments RETURN_IF_ERROR : simpl never.
Local Arguments clone_and_append_context : simpl never.
Local Arguments copy_construct : simpl never.
Local Arguments Cancelled : simpl never.
Local Arguments add_partial_filters : simpl never.
Local Arguments total_bf_bytes : simpl never.

(** X16.  [output_amplification_factor] is computed once.  With nothing
    stored yet, the call asks the Joiner for [avg_keys_perf_bucket()],
    stores and returns that value or 1, whichever is larger, and sets the
    counter AvgKeysPerBuckets to it (as the signed 64-bit number the cast
    gives), leaving the other counters alone; with a value stored, the call
    returns it and changes nothing.  Either way the value is never below
    1, it is the one stored afterwards, the rest of the state is
    untouched, and every later call returns the same value and changes
    nothing, whatever the Joiner would answer by then. *)
Theorem output_amplification_factor_is_cached (s : profiled (C := C)) :
  let r := output_amplification_factor s in
  let stored := _avg_keys_perf_bucket s.1.1 in
  let asked := avg_keys_perf_bucket (core (join_builder s.1.2)) in
  (if bool_decide (stored > 0) then r = (stored, s)
   else r.1 = Z.max asked 1
        /\ r.2.1.1 = set_avg_keys_perf_bucket (Z.max asked 1) s.1.1
        /\ r.2.2 !! "AvgKeysPerBuckets"%string = Some (to_int64 (Z.max asked 1))
        /\ (if bool_decide (Z.max asked 1 < 2 ^ 63)
            then r.2.2 !! "AvgKeysPerBuckets"%string = Some r.1 else True)
        /\ forall k, k <> "AvgKeysPerBuckets"%string -> r.2.2 !! k = s.2 !! k)
  /\ 1 <= r.1
  /\ _avg_keys_perf_bucket r.2.1.1 = r.1
  /\ r.2.1.2 = s.1.2
  /\ forall (w' : world C) (counters' : gmap string Z),
       output_amplification_factor ((r.2.1.1, w'), counters')
       = (r.1, ((r.2.1.1, w'), counters')).
Proof.
  destruct s as [[op w] counters]; unfold output_amplification_factor.
  cbn [fst snd].
  case_bool_decide as Hc; cbn [fst snd].
  - split; [reflexivity|]; repeat split; [lia|].
    intros w' c'; rewrite bool_decide_eq_true_2 by exact Hc; reflexivity.
  - split.
    { split; [reflexivity|]; split; [reflexivity|]; split;
        [apply lookup_insert_eq|]; split.
      - case_bool_decide as Hfit; [|exact I].
        rewrite lookup_insert_eq; f_equal; unfold to_int64.
        rewrite Z.mod_small by lia; lia.
      - intros k Hk; apply lookup_insert_ne; congruence. }
    repeat split; [lia|].
    intros w' c'; cbn [_avg_keys_perf_bucket set_avg_keys_perf_bucket].
    rewrite bool_decide_eq_true_2 by lia; reflexivity.
Qed.

(** X17.  A lane that is prepared and then closed leaves one reference
    behind, the one taken for the prober: [prepare] calls [ref] twice and
    [close] calls [unref] once, whether [prepare_builder] succeeded or
    not.  With a count that was not negative, the builder's [close] is
    never the one that brings it to zero. *)
Theorem prepare_then_close (s : state (C := C)) :
  (ok chk Operator_prepare).1 = true ->
  0 <= refs (join_builder s.2) ->
  let prepared := (function (prepare chk g Operator_prepare) s).2 in
  let closed := (close prepared).2 in
  refs (join_builder closed.2) = refs (join_builder s.2) + 1
  /\ destroyed (join_builder closed.2) = destroyed (join_builder s.2)
  /\ calls closed.2
     = calls s.2 ++ [call_Operator_prepare; call_incr_builder; call_ref;
                     call_ref; call_prepare_builder; call_unref;
                     call_Operator_close].
Proof.
  destruct s as [op w]; cbn [fst snd]; intros Hok Hrefs.
  unfold prepare, close; run_body.
  rewrite Hok; cbn.
  destruct (prepare_builder (core (join_builder w))) as [st k]; cbn.
  destruct (ok chk st).1; cbn.
  all: split; [lia|]; split;
    [rewrite bool_decide_eq_false_2 by lia; apply orb_false_r
    |rewrite <- !app_assoc; reflexivity].
Qed.

(** X18.  What [set_finishing] leaves alone, however it ends: it makes
    only calls of its own sequence, each at most once and in the order of
    the source - never [ref], [unref], [incr_builder] or a base-class call
    - so the reference count of the Joiner is as before; the cancellation
    flag, the operator's plan-node id, lane and distribution mode are as
    before; and no entry of the hub under another plan-node id is
    touched. *)
Theorem set_finishing_frame (s : state (C := C)) (k : Z) :
  let r := function (set_finishing chk g NDEBUG ONCE_DETECTORS) s in
  (exists new, calls r.2.2 = calls s.2 ++ new /\ sublist new set_finishing_calls)
  /\ refs (join_builder r.2.2) = refs (join_builder s.2)
  /\ destroyed (join_builder r.2.2) = destroyed (join_builder s.2)
  /\ cancelled r.2.2 = cancelled s.2
  /\ _plan_node_id r.2.1 = _plan_node_id s.1
  /\ _driver_sequence r.2.1 = _driver_sequence s.1
  /\ _distribution_mode r.2.1 = _distribution_mode s.1
  /\ (if bool_decide (k = _plan_node_id s.1) then True
      else hub r.2.2 !! k = hub s.2 !! k).
Proof.
  destruct s as [op w]; unfold set_finishing, set_finishing_body, ONCE_DETECT.
  run_body.
  repeat branch.
  all: rewrite <- ?app_assoc; cbn.
  all: rewrite ?length_insert.
  all: split;
    [eexists; split;
     [first [reflexivity | symmetry; apply app_nil_r]
     |unfold set_finishing_calls; repeat constructor]|].
  all: repeat (split; [congruence || reflexivity|]).
  all: try exact I; try reflexivity; try congruence.
  all: match goal with
       | Hk : bool_decide (_ = _plan_node_id _) = false |- _ =>
           apply bool_decide_eq_false in Hk
       end.
  all: apply lookup_insert_ne; congruence.
Qed.

(** X19.  A step that fails ends the sequence.  When [build_ht] fails,
    [set_finishing] returns a failure of the same code and message having
    called nothing else; when [create_runtime_filters] fails, it has
    called these two and nothing else.  In both cases no key columns are
    retained, the merger gets no contribution, nothing is published, the
    hub is as before, the Joiner stays in its phase - and the operator is
    finished all the same. *)
Theorem set_finishing_stops_at_failure (s : state (C := C)) :
  (ONCE_DETECTORS = false \/ _set_finishing_once s.1 = false) ->
  cancelled s.2 = false ->
  (NDEBUG = true \/ _distribution_mode s.1 <> BROADCAST \/ _driver_sequence s.1 = 0) ->
  let b := build_ht (core (join_builder s.2)) in
  let f := create_runtime_filters b.2 in
  (ok chk b.1).1 && (ok chk f.1).1 = false ->
  let failed := if (ok chk b.1).1 then f.1 else b.1 in
  let r := function (set_finishing chk g NDEBUG ONCE_DETECTORS) s in
  (exists st, r.1 = Returned st
     /\ (ok chk st).1 = false
     /\ code_of g (_state st) = code_of g (_state failed)
     /\ message_of g (_state st) = message_of g (_state failed))
  /\ calls r.2.2
     = calls s.2 ++ (if (ok chk b.1).1
                     then [call_build_ht; call_create_runtime_filters]
                     else [call_build_ht])
  /\ core (join_builder r.2.2) = (if (ok chk b.1).1 then f.2 else b.2)
  /\ phase (join_builder r.2.2) = phase (join_builder s.2)
  /\ partial_rf_merger r.2.2 = partial_rf_merger s.2
  /\ retained_string_key_columns r.2.2 = retained_string_key_columns s.2
  /\ hub r.2.2 = hub s.2
  /\ published r.2.2 = published s.2
  /\ _is_finished r.2.1 = true.
Proof.
  destruct s as [op w]; cbn [fst snd]; cbv zeta.
  destruct (build_ht (core (join_builder w))) as [st1 k1] eqn:Eb.
  destruct (create_runtime_filters (st1, k1).2) as [st2 k2] eqn:Ef.
  cbn [fst snd] in *.
  intros Honce Hc Hdcheck Hfail.
  assert (Hd : (if NDEBUG then true
                else negb (bool_decide (_distribution_mode op = BROADCAST))
                     || bool_decide (_driver_sequence op = 0)) = true).
  { destruct NDEBUG; [reflexivity|].
    destruct Hdcheck as [?|[Hne|He]]; [discriminate | |].
    - rewrite (bool_decide_eq_false_2 _ Hne); reflexivity.
    - rewrite (bool_decide_eq_true_2 _ He); apply orb_true_r. }
  assert (Ho : (if ONCE_DETECTORS then negb (_set_finishing_once op) else true)
               = true).
  { destruct ONCE_DETECTORS; [|reflexivity].
    destruct Honce as [?|E]; [discriminate | rewrite E; reflexivity]. }
  clear Honce Hdcheck.
  unfold set_finishing, set_finishing_body, ONCE_DETECT.
  run_body.
  revert Ho Hd.
  destruct ONCE_DETECTORS; cbn;
    [destruct (negb (_set_finishing_once op)); cbn; [|discriminate]|].
  all: rewrite Hc; cbn; rewrite Eb; cbn.
  all: destruct (ok chk st1).1 eqn:Eok1; cbn.
  all: try (intros _ _; rewrite <- ?app_assoc; repeat split; try reflexivity;
            eexists; split; [reflexivity|];
            apply clone_and_append_context_failed; exact Eok1).
  all: destruct NDEBUG; cbn;
     [|destruct (negb (bool_decide (_distribution_mode op = BROADCAST))
                 || bool_decide (_driver_sequence op = 0)); cbn;
       [|discriminate]].
  all: rewrite Ef; cbn; cbn [andb] in Hfail; rewrite Hfail; cbn; intros _ _.
  all: rewrite <- ?app_assoc; repeat split; try reflexivity;
    eexists; (split; [reflexivity|]);
    apply clone_and_append_context_failed; exact Hfail.
Qed.

(** X20.  Once [build_ht] and [create_runtime_filters] have succeeded, the
    string key columns of the lane are in the factory's slot of its driver
    sequence, the other slots as before and their number unchanged -
    whatever the merger answers then, an error included: what is retained
    stays retained. *)
Theorem set_finishing_retains_key_columns (s : state (C := C)) (i : nat) :
  (ONCE_DETECTORS = false \/ _set_finishing_once s.1 = false) ->
  cancelled s.2 = false ->
  (NDEBUG = true \/ _distribution_mode s.1 <> BROADCAST \/ _driver_sequence s.1 = 0) ->
  let b := build_ht (core (join_builder s.2)) in
  let f := create_runtime_filters b.2 in
  (ok chk b.1).1 = true ->
  (ok chk f.1).1 = true ->
  0 <= _driver_sequence s.1 ->
  (Z.to_nat (_driver_sequence s.1) < length (retained_string_key_columns s.2))%nat ->
  let r := function (set_finishing chk g NDEBUG ONCE_DETECTORS) s in
  retained_string_key_columns r.2.2 !! Z.to_nat (_driver_sequence s.1)
  = Some (string_key_columns f.2)
  /\ length (retained_string_key_columns r.2.2)
     = length (retained_string_key_columns s.2)
  /\ (if bool_decide (i = Z.to_nat (_driver_sequence s.1)) then True
      else retained_string_key_columns r.2.2 !! i
           = retained_string_key_columns s.2 !! i).
Proof.
  destruct s as [op w]; cbn [fst snd]; cbv zeta.
  destruct (build_ht (core (join_builder w))) as [st1 k1] eqn:Eb.
  destruct (create_runtime_filters (st1, k1).2) as [st2 k2] eqn:Ef.
  cbn [fst snd] in *.
  intros Honce Hc Hdcheck Hb Hf _ Hlen.
  assert (Hd : (if NDEBUG then true
                else negb (bool_decide (_distribution_mode op = BROADCAST))
                     || bool_decide (_driver_sequence op = 0)) = true).
  { destruct NDEBUG; [reflexivity|].
    destruct Hdcheck as [?|[Hne|He]]; [discriminate | |].
    - rewrite (bool_decide_eq_false_2 _ Hne); reflexivity.
    - rewrite (bool_decide_eq_true_2 _ He); apply orb_true_r. }
  assert (Ho : (if ONCE_DETECTORS then negb (_set_finishing_once op) else true)
               = true).
  { destruct ONCE_DETECTORS; [|reflexivity].
    destruct Honce as [?|E]; [discriminate | rewrite E; reflexivity]. }
  clear Honce Hdcheck.
  unfold set_finishing, set_finishing_body, ONCE_DETECT.
  run_body.
  revert Ho Hd.
  destruct ONCE_DETECTORS; cbn;
    [destruct (negb (_set_finishing_once op)); cbn; [|discriminate]|].
  all: rewrite Hc; cbn; rewrite Eb; cbn; rewrite Hb; cbn.
  all: destruct NDEBUG; cbn;
     [|destruct (negb (bool_decide (_distribution_mode op = BROADCAST))
                 || bool_decide (_driver_sequence op = 0)); cbn;
       [|discriminate]].
  all: rewrite Ef; cbn; rewrite Hf; cbn; intros _ _.
  all: destruct (add_partial_filters _ (partial_rf_merger w)) as [[e|[|]] m]; cbn.
  all: split; [apply list_lookup_insert_eq; exact Hlen|].
  all: split; [apply length_insert|].
  all: case_bool_decide as Hi; [exact I|].
  all: apply list_lookup_insert_ne; congruence.
Qed.

End Operator.

Lemma prepare_then_close_witness :
  let lane := (HashJoinDemo.lane_operator BROADCAST 0, HashJoinDemo.fresh_world 1) in
  refs (join_builder
          (close (function (prepare false HashJoinDemo.marker OK_) lane).2).2.2)
  = 1.
Proof.
  pose proof (prepare_then_close (C := HashJoinDemo.table) false
                HashJoinDemo.marker OK_
                (HashJoinDemo.lane_operator BROADCAST 0, HashJoinDemo.fresh_world 1)
                eq_refl ltac:(vm_compute; discriminate)) as W.
  exact (proj1 W).
Defined.

Lemma set_finishing_stops_at_failure_witness :
  let r := function (set_finishing false HashJoinDemo.marker true false)
             HashJoinDemoMore.failing_lane in
  calls r.2.2 = calls HashJoinDemoMore.failing_lane.2 ++ [call_build_ht]
  /\ _is_finished r.2.1 = true.
Proof.
  assert (Hc : cancelled HashJoinDemoMore.failing_lane.2 = false)
    by (vm_compute; reflexivity).
  assert (Hf : (ok false (build_ht (core (join_builder
                   HashJoinDemoMore.failing_lane.2))).1).1
               && (ok false (create_runtime_filters
                      (build_ht (core (join_builder
                         HashJoinDemoMore.failing_lane.2))).2).1).1
               = false) by (vm_compute; reflexivity).
  pose proof (set_finishing_stops_at_failure false HashJoinDemo.marker true false
                HashJoinDemoMore.failing_lane
                (or_introl eq_refl) Hc (or_introl eq_refl) Hf) as W.
  vm_compute in W; vm_compute.
  destruct W as (_ & W2 & _ & _ & _ & _ & _ & _ & W9).
  split; assumption.
Defined.

Lemma set_finishing_retains_key_columns_witness :
  retained_string_key_columns HashJoinDemo.first_call.2.2 !! 0%nat
  = Some [10; 20; 30].
Proof.
  assert (Hc : cancelled HashJoinDemo.fed_lane.2 = false)
    by (vm_compute; reflexivity).
  assert (Hb : (ok false (build_ht (core (join_builder
                   HashJoinDemo.fed_lane.2))).1).1 = true)
    by (vm_compute; reflexivity).
  assert (Hf : (ok false (create_runtime_filters
                            (build_ht (core (join_builder
                               HashJoinDemo.fed_lane.2))).2).1).1
               = true) by (vm_compute; reflexivity).
  assert (Hl : (Z.to_nat (_driver_sequence HashJoinDemo.fed_lane.1)
                < length (retained_string_key_columns HashJoinDemo.fed_lane.2))%nat)
    by (vm_compute; constructor).
  pose proof (set_finishing_retains_key_columns false HashJoinDemo.marker
                true false HashJoinDemo.fed_lane 0%nat
                (or_introl eq_refl) Hc (or_introl eq_refl) Hb Hf
                ltac:(vm_compute; discriminate) Hl) as W.
  vm_compute in W; vm_compute.
  exact (proj1 W).
Defined.


End HashJoinMoreProps.


(** ** The read limit of a DataSource *)
Module ConnectorProps.

Import Casts Connector.

Local Open Scope Z_scope.

(** X21.  [set_read_limit] takes an unsigned 64-bit number and keeps it in
    a signed one: a limit below 2^63 is kept as it is; a limit from 2^63
    on is kept as a negative number, the limit less 2^64; and the largest
    unsigned number, and only it, gives the -1 a DataSource starts with,
    which stands for no limit. *)
Theorem set_read_limit_conversion (limit : Z) (d : DataSource) :
  0 <= limit < 2 ^ 64 ->
  let kept := _read_limit (set_read_limit limit d) in
  - 2 ^ 63 <= kept < 2 ^ 63
  /\ kept = (if bool_decide (limit < 2 ^ 63) then limit else limit - 2 ^ 64)
  /\ (kept < 0 <-> 2 ^ 63 <= limit)
  /\ (kept = _read_limit new_DataSource <-> limit = 2 ^ 64 - 1).
Proof.
  intros Hl; cbn [set_read_limit _read_limit new_DataSource]; unfold to_int64.
  assert (E : (limit + 2 ^ 63) mod 2 ^ 64
              = if bool_decide (limit < 2 ^ 63) then limit + 2 ^ 63
                else limit - 2 ^ 63).
  { case_bool_decide.
    - apply Z.mod_small; lia.
    - symmetry; apply (Z.mod_unique _ _ 1); lia. }
  rewrite E; case_bool_decide; lia.
Qed.

Lemma set_read_limit_conversion_witness :
  _read_limit (set_read_limit (2 ^ 64 - 1) new_DataSource) < 0
  <-> 2 ^ 63 <= 2 ^ 64 - 1.
Proof.
  exact (proj1 (proj2 (proj2 (set_read_limit_conversion (2 ^ 64 - 1)
                                new_DataSource ltac:(lia))))).
Defined.

End ConnectorProps.

(** ** [call_function_in_pthread] *)
Module UdfUtilsProps.

Import TStatusCode StatusModel StatusProps UdfUtils.

Section CallInPthread.

Variable chk : bool.
Variable g : state_cells.

Context {T : Type} `{CurrentThread T}.

(** What the closure does on the thread that runs it. *)
Lemma offered_runs (state : RuntimeState) (func : T -> Status * T) (t : T) :
  tracker_laws ->
  let t_in := (set_trace_info (query_id state) (fragment_instance_id state)
                 (set_mem_tracker (instance_mem_tracker state) t).2).2 in
  exists t' v,
    offered chk g state func t None = Some (t', Some v)
    /\ mem_tracker t_in = instance_mem_tracker state
    /\ mem_tracker t' = mem_tracker t
    /\ cells g (_state v) = cells g (_state (func t_in).1).
Proof.
  intros (Hset & Henter & Hexit) t_in; subst t_in; unfold offered.
  pose proof (Hset (instance_mem_tracker state) t) as [Hprev Hin].
  destruct (set_mem_tracker (instance_mem_tracker state) t) as [prev t1];
    cbn [fst snd] in *.
  pose proof (Henter (query_id state) (fragment_instance_id state) t1) as Hq.
  destruct (set_trace_info (query_id state) (fragment_instance_id state) t1)
    as [scope t2]; cbn [fst snd] in *.
  destruct (func t2) as [r t3]; cbn [fst snd].
  pose proof (state_move_assign chk default_Status r) as [Hm _].
  destruct (move_assign chk default_Status r) as [[st r'] d]; cbn [fst snd] in *.
  pose proof (state_copy_construct chk g st) as [Hc _].
  destruct (copy_construct chk g st) as [v st']; cbn [fst snd] in *.
  exists (restore_trace_info scope (set_mem_tracker prev t3).2), v.
  split; [reflexivity|]; split; [congruence|]; split.
  - rewrite Hexit, (proj2 (Hset prev t3)); exact Hprev.
  - rewrite Hc, Hm; reflexivity.
Qed.

(** X22.  [call_function_in_pthread] hands [func]'s status to the promise
    on both paths.  Outside a bthread [func] runs in the caller, under the
    tracker the caller has, the promise is fulfilled on return and nothing
    is offered to the pool.  In a bthread the caller does not run [func]:
    the promise is empty on return and one closure is offered, after those
    already there; the thread that runs it runs [func] under the tracker
    of the fragment instance, gets back the tracker it had - whatever
    [func] left in place - and fulfils the promise with a status of the
    same code, message and context as the one [func] returned. *)
Theorem call_function_in_pthread_fulfils_the_promise
    (bthread_self : bool) (state : RuntimeState) (func : T -> Status * T)
    (t worker : T) (pool : list (task (T := T))) :
  tracker_laws ->
  exists r, call_function_in_pthread chk g bthread_self state func t pool = Some r
  /\ if bthread_self then
       ms r = None /\ caller r = t
       /\ exists job, udf_call_pool r = pool ++ [job]
          /\ exists worker_in worker' v,
               job worker None = Some (worker', Some v)
               /\ mem_tracker worker_in = instance_mem_tracker state
               /\ mem_tracker worker' = mem_tracker worker
               /\ cells g (_state v) = cells g (_state (func worker_in).1)
     else
       udf_call_pool r = pool /\ caller r = (func t).2
       /\ exists v, ms r = Some v /\ _state v = _state (func t).1.
Proof.
  intros Hlaws; unfold call_function_in_pthread.
  destruct bthread_self.
  - eexists; split; [reflexivity|]; cbn [ms caller udf_call_pool].
    split; [reflexivity|]; split; [reflexivity|].
    eexists; split; [reflexivity|].
    destruct (offered_runs state func worker Hlaws) as (t' & v & E & H1 & H2 & H3).
    eexists _, t', v; repeat split; eassumption.
  - destruct (func t) as [r t1]; cbn [fst snd].
    pose proof (state_move_construct chk r) as [Hm _].
    destruct (move_construct chk r) as [v r']; cbn [fst snd] in *.
    eexists; split; [reflexivity|]; cbn [ms caller udf_call_pool].
    split; [reflexivity|]; split; [reflexivity|].
    exists v; split; [reflexivity | exact Hm].
Qed.

End CallInPthread.

Lemma call_function_in_pthread_fulfils_the_promise_witness :
  exists r,
    call_function_in_pthread true HashJoinDemo.marker true
      (MkRuntimeState 5 1 2) demo_func (MkThread 3 (0, 0)%N) [] = Some r
    /\ ms r = None
    /\ exists job worker',
         udf_call_pool r = [job]
         /\ job (MkThread 8 (0, 0)%N) None = Some (worker', Some OK_)
         /\ demo_tracker worker' = 8%N.
Proof.
  destruct (call_function_in_pthread_fulfils_the_promise true HashJoinDemo.marker
              true (MkRuntimeState 5 1 2) demo_func (MkThread 3 (0, 0)%N)
              (MkThread 8 (0, 0)%N) [] ltac:(repeat split))
    as (r & E & Hms & _ & job & Hpool & _).
  exists r; split; [exact E|]; split; [exact Hms|].
  injection E as <-.
  eexists _, _; split; [reflexivity|]; split; reflexivity.
Defined.

End UdfUtilsProps.
